(** * Calculator: a recursive-descent evaluator of integer expressions

    Shallow embedding of [src/main.c] and the properties of its three
    grammar levels ([get_natural], [evaluate_term], [evaluate_expression])
    and of the entry point [calculate].

    Conventions of the embedding.
    - The argument [expr] is the contents of the character array that holds
      the C string, without the terminating NUL that follows it: index
      [length expr] reads that NUL and any larger index lies outside the
      array.  A read outside the array has no defined result in C; it ends
      the run with [Fault].
    - [int] is a 32-bit two's complement integer held in [Z]; every
      arithmetic operation is followed by its wrap-around [int_wrap], also
      where C leaves the overflow of a signed operation undefined.  For
      addition, subtraction and multiplication that is what the compiled
      program computes.  For the one division whose quotient is no [int],
      INT_MIN by -1, C defines nothing and a processor may stop the program
      there; [Int.div] is only a placeholder at that pair, and every
      property below that states a returned value leaves the pair out.
    - The cursor [position] is a natural number (strings stay shorter than 2^31
      characters, so neither the [int] cursor nor the [unsigned] loop index
      of [calculate] wraps).
    - [exit(EXIT_FAILURE)] ends the run with [Exit] and the reason.
    - Loops and recursion spend [fuel]; [OutOfFuel] is an artefact of the
      embedding and is shown never to occur with [gas expr] units. *)

From Stdlib Require Import ZArith List Ascii String Lia Bool Arith.
From Stdlib Require DecimalString DecimalPos.
Import ListNotations.

Local Open Scope Z_scope.

(** ** Outcomes of a run *)

Inductive failure : Type :=
| WrongCharacter     (* calculate: a character fails is_right_char *)
| DivisionByZero.    (* evaluate_term: operand == 0 *)

Inductive outcome (A : Type) : Type :=
| Ok (a : A)
| Exit (why : failure)
| Fault
| OutOfFuel.

Arguments Ok {A} a.
Arguments Exit {A} why.
Arguments Fault {A}.
Arguments OutOfFuel {A}.

Definition bind {A B : Type} (m : outcome A) (k : A -> outcome B) : outcome B :=
  match m with
  | Ok a => k a
  | Exit why => Exit why
  | Fault => Fault
  | OutOfFuel => OutOfFuel
  end.

Notation "x <- m ;; k" := (bind m (fun x => k))
  (at level 61, m at next level, right associativity).
Notation "' p <- m ;; k" := (bind m (fun x => match x with p => k end))
  (at level 61, p pattern, m at next level, right associativity).

(** ** Machine integers *)

Module Int.

Definition min_signed : Z := - 2 ^ 31.
Definition max_signed : Z := 2 ^ 31 - 1.

Definition in_range (z : Z) : Prop := min_signed <= z <= max_signed.

Definition in_rangeb (z : Z) : bool :=
  (min_signed <=? z) && (z <=? max_signed).

Definition int_wrap (z : Z) : Z := (z + 2 ^ 31) mod 2 ^ 32 - 2 ^ 31.

Definition add (a b : Z) : Z := int_wrap (a + b).
Definition sub (a b : Z) : Z := int_wrap (a - b).
Definition mul (a b : Z) : Z := int_wrap (a * b).
(* C's [/] on int: the quotient with the fractional part discarded.  The
   quotient is an int for every pair but INT_MIN and -1, where C leaves the
   division undefined and the wrapped value stands for no result of the
   program. *)
Definition div (a b : Z) : Z := int_wrap (Z.quot a b).

End Int.

(** ** Characters and the string in memory *)

Definition NUL : ascii := Ascii.zero.

Definition code (c : ascii) : Z := Z.of_N (N_of_ascii c).

Definition isdigit (c : ascii) : bool :=
  (code "0" <=? code c) && (code c <=? code "9").

Definition is_char (c d : ascii) : bool := Ascii.eqb c d.

(* expr[i] *)
Definition read (expr : list ascii) (i : nat) : outcome ascii :=
  match nth_error (expr ++ [NUL]) i with
  | Some c => Ok c
  | None => Fault
  end.

Fixpoint strlen (expr : list ascii) : nat :=
  match expr with
  | [] => O
  | c :: rest => if is_char c NUL then O else S (strlen rest)
  end.

Definition text (s : string) : list ascii := list_ascii_of_string s.

(** ** The three grammar levels *)

(* The digit loop of get_natural: while the current character is a digit,
   natural = natural * 10 + character - 48, the cursor advances, and the
   loop is left as soon as the cursor reaches strlen(expr). *)
Fixpoint digits_loop (fuel : nat) (expr : list ascii) (natural : Z) (position : nat)
  : outcome (Z * nat) :=
  match fuel with
  | O => OutOfFuel
  | S fuel' =>
      c <- read expr position ;;
      if isdigit c then
        let natural' := Int.sub (Int.add (Int.mul natural 10) (code c)) (code "0") in
        let position' := S position in
        if (strlen expr <=? position')%nat then Ok (natural', position')
        else digits_loop fuel' expr natural' position'
      else Ok (natural, position)
  end.

Fixpoint get_natural (fuel : nat) (expr : list ascii) (position : nat) {struct fuel}
  : outcome (Z * nat) :=
  match fuel with
  | O => OutOfFuel
  | S fuel' =>
      c0 <- read expr position ;;
      let '(sign, position1) :=
        if is_char c0 "-" then (Int.mul 1 (-1), S position) else (1, position) in
      c1 <- read expr position1 ;;
      '(natural, position2) <-
        (if is_char c1 "(" then
           '(v, q) <- evaluate_expression fuel' expr (S position1) ;;
           Ok (v, S q)
         else digits_loop fuel' expr 0 position1) ;;
      Ok (Int.mul natural sign, position2)
  end

with evaluate_term (fuel : nat) (expr : list ascii) (position : nat) {struct fuel}
  : outcome (Z * nat) :=
  match fuel with
  | O => OutOfFuel
  | S fuel' =>
      '(result, position1) <- get_natural fuel' expr position ;;
      term_loop fuel' expr result position1
  end

(* The loop of evaluate_term: while the current character is a star or a
   slash. *)
with term_loop (fuel : nat) (expr : list ascii) (result : Z) (position : nat)
  {struct fuel} : outcome (Z * nat) :=
  match fuel with
  | O => OutOfFuel
  | S fuel' =>
      operator <- read expr position ;;
      if is_char operator "*" then
        '(v, position1) <- get_natural fuel' expr (S position) ;;
        term_loop fuel' expr (Int.mul result v) position1
      else if is_char operator "/" then
        '(operand, position1) <- get_natural fuel' expr (S position) ;;
        if operand =? 0 then Exit DivisionByZero
        else term_loop fuel' expr (Int.div result operand) position1
      else Ok (result, position)
  end

with evaluate_expression (fuel : nat) (expr : list ascii) (position : nat)
  {struct fuel} : outcome (Z * nat) :=
  match fuel with
  | O => OutOfFuel
  | S fuel' =>
      '(result, position1) <- evaluate_term fuel' expr position ;;
      expression_loop fuel' expr result position1
  end

(* The loop of evaluate_expression: while the current character is a plus
   or a minus. *)
with expression_loop (fuel : nat) (expr : list ascii) (result : Z) (position : nat)
  {struct fuel} : outcome (Z * nat) :=
  match fuel with
  | O => OutOfFuel
  | S fuel' =>
      operator <- read expr position ;;
      if is_char operator "+" then
        '(v, position1) <- evaluate_term fuel' expr (S position) ;;
        expression_loop fuel' expr (Int.add result v) position1
      else if is_char operator "-" then
        '(v, position1) <- evaluate_term fuel' expr (S position) ;;
        expression_loop fuel' expr (Int.sub result v) position1
      else Ok (result, position)
  end.

(** ** The validator and the entry point *)

Definition is_right_char (c : ascii) : bool :=
  is_char c "(" || is_char c ")" || is_char c "+" || is_char c "-" ||
  is_char c "*" || is_char c "/" || isdigit c.

(* strlen(expression) - 1 in the unsigned type size_t: the subtraction wraps
   around to SIZE_MAX when the string is empty. *)
Definition scan_bound (expr : list ascii) : Z :=
  match strlen expr with
  | O => 2 ^ 64 - 1
  | S n => Z.of_nat n
  end.

(* The loop of calculate: for i = 0 while i < strlen(expression) - 1, a
   character that fails is_right_char ends the run. *)
Fixpoint check_chars (fuel : nat) (expr : list ascii) (i : nat) : outcome unit :=
  match fuel with
  | O => OutOfFuel
  | S fuel' =>
      if Z.of_nat i <? scan_bound expr then
        c <- read expr i ;;
        if is_right_char c then check_chars fuel' expr (S i)
        else Exit WrongCharacter
      else Ok tt
  end.

Definition calculate (fuel : nat) (expression : list ascii) : outcome Z :=
  _ <- check_chars fuel expression 0 ;;
  '(v, _) <- evaluate_expression fuel expression 0 ;;
  Ok v.

(* Fuel that is enough for every run on [expr]. *)
Definition gas (expr : list ascii) : nat := 3 * List.length expr + 9.

Definition run (s : string) : outcome Z := calculate (gas (text s)) (text s).

(** ** Reference semantics

    Well-formed expressions as syntax trees, with left-associative chains,
    their text, and two readings of their value: [value_*] in unbounded
    integers (standard arithmetic, [None] at a division by zero) and
    [denote_*] in machine integers (the arithmetic of [Int]). *)

Inductive digit : Type := D0 | D1 | D2 | D3 | D4 | D5 | D6 | D7 | D8 | D9.

Definition digit_value (d : digit) : Z :=
  match d with
  | D0 => 0 | D1 => 1 | D2 => 2 | D3 => 3 | D4 => 4
  | D5 => 5 | D6 => 6 | D7 => 7 | D8 => 8 | D9 => 9
  end.

Definition digit_char (d : digit) : ascii :=
  match d with
  | D0 => "0" | D1 => "1" | D2 => "2" | D3 => "3" | D4 => "4"
  | D5 => "5" | D6 => "6" | D7 => "7" | D8 => "8" | D9 => "9"
  end%char.

Inductive factor : Type :=
| Lit (negative : bool) (d : digit) (ds : list digit)
| Group (negative : bool) (e : expression)
with term : Type :=
| TFactor (f : factor)
| TMul (t : term) (f : factor)
| TDiv (t : term) (f : factor)
with expression : Type :=
| ETerm (t : term)
| EAdd (e : expression) (t : term)
| ESub (e : expression) (t : term).

Scheme factor_term_ind := Induction for factor Sort Prop
  with term_factor_ind := Induction for term Sort Prop
  with expression_factor_ind := Induction for expression Sort Prop.
Combined Scheme syntax_ind
  from factor_term_ind, term_factor_ind, expression_factor_ind.

Definition show_sign (negative : bool) : list ascii :=
  if negative then ["-"%char] else [].

Fixpoint show_factor (f : factor) : list ascii :=
  match f with
  | Lit negative d ds => show_sign negative ++ map digit_char (d :: ds)
  | Group negative e =>
      show_sign negative ++ "("%char :: show_expression e ++ [")"%char]
  end
with show_term (t : term) : list ascii :=
  match t with
  | TFactor f => show_factor f
  | TMul t f => show_term t ++ "*"%char :: show_factor f
  | TDiv t f => show_term t ++ "/"%char :: show_factor f
  end
with show_expression (e : expression) : list ascii :=
  match e with
  | ETerm t => show_term t
  | EAdd e t => show_expression e ++ "+"%char :: show_term t
  | ESub e t => show_expression e ++ "-"%char :: show_term t
  end.

(** Standard arithmetic. *)

Definition magnitude (ds : list digit) : Z :=
  fold_left (fun acc d => acc * 10 + digit_value d) ds 0.

Definition signed (negative : bool) (z : Z) : Z :=
  if negative then - z else z.

Definition lift2 (op : Z -> Z -> Z) (a b : option Z) : option Z :=
  match a, b with
  | Some x, Some y => Some (op x y)
  | _, _ => None
  end.

Definition quotient (a b : option Z) : option Z :=
  match a, b with
  | Some x, Some y => if y =? 0 then None else Some (Z.quot x y)
  | _, _ => None
  end.

Fixpoint value_factor (f : factor) : option Z :=
  match f with
  | Lit negative d ds => Some (signed negative (magnitude (d :: ds)))
  | Group negative e => option_map (signed negative) (value_expression e)
  end
with value_term (t : term) : option Z :=
  match t with
  | TFactor f => value_factor f
  | TMul t f => lift2 Z.mul (value_term t) (value_factor f)
  | TDiv t f => quotient (value_term t) (value_factor f)
  end
with value_expression (e : expression) : option Z :=
  match e with
  | ETerm t => value_term t
  | EAdd e t => lift2 Z.add (value_expression e) (value_term t)
  | ESub e t => lift2 Z.sub (value_expression e) (value_term t)
  end.

(** Every literal and every intermediate result is an [int]. *)

Definition fits_value (v : option Z) : bool :=
  match v with
  | Some z => Int.in_rangeb z
  | None => true
  end.

Fixpoint fits_factor (f : factor) : bool :=
  match f with
  | Lit negative d ds => Int.in_rangeb (magnitude (d :: ds))
  | Group negative e =>
      fits_expression e && fits_value (value_factor (Group negative e))
  end
with fits_term (t : term) : bool :=
  match t with
  | TFactor f => fits_factor f
  | TMul t' f | TDiv t' f =>
      fits_term t' && fits_factor f && fits_value (value_term t)
  end
with fits_expression (e : expression) : bool :=
  match e with
  | ETerm t => fits_term t
  | EAdd e' t | ESub e' t =>
      fits_expression e' && fits_term t && fits_value (value_expression e)
  end.

(** Machine arithmetic: the same chains with the operations of [Int] and
    the exit of [evaluate_term] at a zero divisor. *)

Definition machine_magnitude (ds : list digit) : Z :=
  fold_left
    (fun acc d =>
       Int.sub (Int.add (Int.mul acc 10) (code (digit_char d))) (code "0"))
    ds 0.

Definition machine_sign (negative : bool) : Z :=
  if negative then Int.mul 1 (-1) else 1.

Fixpoint denote_factor (f : factor) : outcome Z :=
  match f with
  | Lit negative d ds =>
      Ok (Int.mul (machine_magnitude (d :: ds)) (machine_sign negative))
  | Group negative e =>
      v <- denote_expression e ;; Ok (Int.mul v (machine_sign negative))
  end
with denote_term (t : term) : outcome Z :=
  match t with
  | TFactor f => denote_factor f
  | TMul t f =>
      a <- denote_term t ;; b <- denote_factor f ;; Ok (Int.mul a b)
  | TDiv t f =>
      a <- denote_term t ;; b <- denote_factor f ;;
      if b =? 0 then Exit DivisionByZero else Ok (Int.div a b)
  end
with denote_expression (e : expression) : outcome Z :=
  match e with
  | ETerm t => denote_term t
  | EAdd e t =>
      a <- denote_expression e ;; b <- denote_term t ;; Ok (Int.add a b)
  | ESub e t =>
      a <- denote_expression e ;; b <- denote_term t ;; Ok (Int.sub a b)
  end.

(** Some division of the tree has a right operand that evaluates to 0. *)



(** Some division of the tree has INT_MIN as its left operand and -1 as its
    right operand: the one division that C leaves undefined. *)

Definition is_value (r : outcome Z) (z : Z) : bool :=
  match r with
  | Ok v => v =? z
  | _ => false
  end.

Fixpoint min_by_minus_one_factor (f : factor) : bool :=
  match f with
  | Lit _ _ _ => false
  | Group _ e => min_by_minus_one_expression e
  end
with min_by_minus_one_term (t : term) : bool :=
  match t with
  | TFactor f => min_by_minus_one_factor f
  | TMul t f => min_by_minus_one_term t || min_by_minus_one_factor f
  | TDiv t f =>
      min_by_minus_one_term t || min_by_minus_one_factor f ||
      (is_value (denote_term t) Int.min_signed &&
       is_value (denote_factor f) (-1))
  end
with min_by_minus_one_expression (e : expression) : bool :=
  match e with
  | ETerm t => min_by_minus_one_term t
  | EAdd e t | ESub e t =>
      min_by_minus_one_expression e || min_by_minus_one_term t
  end.

(** ** The console: [main] and the test functions

    Standard input is the list of characters still to be read; standard
    output is the list of characters written to it.  The messages that
    [assert] writes go to standard error and are left out. *)

Definition newline : ascii := "010"%char.

(* What printf writes for the conversion d of an int. *)
Definition print_int (z : Z) : list ascii :=
  text (DecimalString.NilZero.string_of_int (Z.to_int z)).

(* The digits of a decimal numeral, most significant first. *)
Fixpoint uint_digits (u : Decimal.uint) : list digit :=
  match u with
  | Decimal.Nil => []
  | Decimal.D0 u' => D0 :: uint_digits u'
  | Decimal.D1 u' => D1 :: uint_digits u'
  | Decimal.D2 u' => D2 :: uint_digits u'
  | Decimal.D3 u' => D3 :: uint_digits u'
  | Decimal.D4 u' => D4 :: uint_digits u'
  | Decimal.D5 u' => D5 :: uint_digits u'
  | Decimal.D6 u' => D6 :: uint_digits u'
  | Decimal.D7 u' => D7 :: uint_digits u'
  | Decimal.D8 u' => D8 :: uint_digits u'
  | Decimal.D9 u' => D9 :: uint_digits u'
  end.

(* The characters fgets stores from a stream: it stops after a newline, at
   the end of the stream, or when n characters are stored. *)
Fixpoint read_line (n : nat) (stdin : list ascii) : list ascii :=
  match n, stdin with
  | S n', c :: rest =>
      if is_char c newline then [c] else c :: read_line n' rest
  | _, _ => []
  end.

(* fgets(buffer, size, stdin): at most size - 1 characters and the
   terminating NUL; a null pointer, the buffer untouched, when the stream
   is at its end. *)
Definition fgets (size : nat) (stdin : list ascii) : option (list ascii) :=
  match stdin with
  | [] => None
  | _ :: _ => Some (read_line (size - 1) stdin)
  end.

(* How a run of the program ends. *)
Inductive ending : Type :=
| Returns (status : Z)    (* main returns *)
| ExitsFailure            (* exit(EXIT_FAILURE) *)
| Aborts                  (* an assertion fails *)
| Undefined               (* a read outside a string *)
| Unfinished.             (* out of fuel *)

Definition prompt : list ascii := text "Enter an arithmetic expression: ".

Definition wrong_character_message : list ascii :=
  newline :: text "Wrong character in the expression." ++ [newline].

(* assert(call == expected), followed by the rest of the test function:
   [Ok false] is the failed assertion. *)
Definition assert_value (call : outcome (Z * nat)) (expected : Z)
  (rest : outcome bool) : outcome bool :=
  '(v, _) <- call ;; if v =? expected then rest else Ok false.

Definition assert_result (call : outcome Z) (expected : Z)
  (rest : outcome bool) : outcome bool :=
  v <- call ;; if v =? expected then rest else Ok false.

Definition test_get_natural (fuel : nat) : outcome bool :=
  assert_value (get_natural fuel (text "-1") 0) (-1)
  (assert_value (get_natural fuel (text "8.0") 0) 8
  (assert_value (get_natural fuel (text "2f") 0) 2
  (assert_value (get_natural fuel (text "xf") 0) 0
  (assert_value (get_natural fuel (text "(1)") 0) 1
  (assert_value (get_natural fuel (text "(1+1)") 0) 2
  (assert_value (get_natural fuel (text "((-1)+1)") 0) 0
  (Ok true))))))).

Definition test_evaluate_term (fuel : nat) : outcome bool :=
  assert_value (evaluate_term fuel (text "1*2") 0) 2
  (assert_value (evaluate_term fuel (text "-3*4") 0) (-12)
  (assert_value (evaluate_term fuel (text "-1*-4") 0) 4
  (assert_value (evaluate_term fuel (text "0*-4") 0) 0
  (Ok true)))).

Definition test_evaluate_expression (fuel : nat) : outcome bool :=
  assert_value (evaluate_expression fuel (text "1+2") 0) 3
  (assert_value (evaluate_expression fuel (text "3+2*1") 0) 5
  (assert_value (evaluate_expression fuel (text "1*4+2") 0) 6
  (assert_value (evaluate_expression fuel (text "4*4-3*2") 0) 10
  (assert_value (evaluate_expression fuel (text "0*4-3*2+1") 0) (-5)
  (Ok true))))).

Definition test_calculate (fuel : nat) : outcome bool :=
  assert_result (calculate fuel (text "(1+3*(-4))/2")) (-5)
  (assert_result (calculate fuel (text "(1*(-2))*(-2)-1*(2+4*2)/3+1")) 2
  (assert_result (calculate fuel (text "(1*(-1+2*1)/3")) 0
  (assert_result (calculate fuel (text "2/2")) 1
  (assert_result (calculate fuel (text "1+2/(1*3)-2")) (-1)
  (Ok true))))).

(* One test function after another, as long as no assertion fails. *)
Definition and_then (first second : outcome bool) : outcome bool :=
  passed <- first ;; if passed then second else Ok false.

Definition test_overall (fuel : nat) : outcome bool :=
  and_then (test_get_natural fuel)
  (and_then (test_evaluate_term fuel)
  (and_then (test_evaluate_expression fuel)
            (test_calculate fuel))).

(* main from its prompt on: the line of standard input goes to calculate
   and the result is printed. *)
Definition main_after_tests (fuel : nat) (stdin : list ascii)
  : list ascii * ending :=
  match fgets 100 stdin with
  | None => (prompt, Undefined)
  | Some expression =>
      match calculate fuel expression with
      | Ok result =>
          (prompt ++ text "Result: " ++ print_int result ++ [newline],
           Returns 0)
      | Exit WrongCharacter => (prompt ++ wrong_character_message, ExitsFailure)
      | Exit DivisionByZero => (prompt, ExitsFailure)
      | Fault => (prompt, Undefined)
      | OutOfFuel => (prompt, Unfinished)
      end
  end.

Definition main (fuel : nat) (stdin : list ascii) : list ascii * ending :=
  match test_overall fuel with
  | Ok true => main_after_tests fuel stdin
  | Ok false => ([], Aborts)
  | Exit WrongCharacter => (wrong_character_message, ExitsFailure)
  | Exit DivisionByZero => ([], ExitsFailure)
  | Fault => ([], Undefined)
  | OutOfFuel => ([], Unfinished)
  end.

(** ** Proof tactics *)

(* Case analysis on the first computation of a bind in hypothesis H. *)
Ltac run_bind H :=
  match type of H with
  | bind ?m _ = _ =>
      let E := fresh "E" in
      destruct m as [[? ?]| | |] eqn:E; simpl in H; try discriminate H
  end.

Ltac run_read H :=
  match type of H with
  | bind (read ?e ?p) _ = _ =>
      let E := fresh "R" in
      destruct (read e p) as [?| | |] eqn:E; simpl in H; try discriminate H
  end.

(* Arithmetic on the lengths of concatenated texts. *)
Ltac lengths :=
  cbn [List.length map app] in *;
  repeat (progress (rewrite ?length_app, ?length_map in *;
                    cbn [List.length map app] in *));
  lia.

(* Two bracketings of the same text. *)
Ltac same_text :=
  subst; repeat rewrite <- app_assoc; cbn [app]; reflexivity.

(** ** Machine integers: basic facts *)

Lemma int_wrap_in_range (z : Z) : Int.in_range (Int.int_wrap z).
Proof.
  unfold Int.in_range, Int.int_wrap, Int.min_signed, Int.max_signed.
  pose proof (Z.mod_pos_bound (z + 2 ^ 31) (2 ^ 32) ltac:(lia)). lia.
Qed.

Lemma int_wrap_small (z : Z) : Int.in_range z -> Int.int_wrap z = z.
Proof.
  unfold Int.in_range, Int.int_wrap, Int.min_signed, Int.max_signed.
  intros H. rewrite Z.mod_small; lia.
Qed.

Lemma in_rangeb_spec (z : Z) : Int.in_rangeb z = true <-> Int.in_range z.
Proof.
  unfold Int.in_rangeb, Int.in_range.
  rewrite andb_true_iff, !Z.leb_le. tauto.
Qed.

(** ** Reading the string *)

Lemma read_inside (expr : list ascii) (i : nat) (c : ascii) :
  read expr i = Ok c -> (i <= List.length expr)%nat.
Proof.
  unfold read. destruct (nth_error (expr ++ [NUL]) i) eqn:E; [|discriminate].
  intros _. assert (H : nth_error (expr ++ [NUL]) i <> None) by congruence.
  apply nth_error_Some in H. rewrite length_app in H. simpl in H. lia.
Qed.

Lemma read_terminator (expr : list ascii) : read expr (List.length expr) = Ok NUL.
Proof.
  unfold read. rewrite nth_error_app2 by lia. now rewrite Nat.sub_diag.
Qed.

Lemma read_end_is_NUL (expr : list ascii) (i : nat) (c : ascii) :
  read expr i = Ok c -> c <> NUL -> (i < List.length expr)%nat.
Proof.
  intros H Hc. pose proof (read_inside _ _ _ H) as Hle.
  destruct (Nat.eq_dec i (List.length expr)) as [->|]; [|lia].
  rewrite read_terminator in H. congruence.
Qed.

Lemma read_outside (expr : list ascii) (i : nat) :
  (List.length expr < i)%nat -> read expr i = Fault.
Proof.
  intros H. unfold read.
  replace (nth_error (expr ++ [NUL]) i) with (@None ascii); [reflexivity|].
  symmetry. apply nth_error_None. rewrite length_app. simpl. lia.
Qed.

Lemma read_middle (pre rest : list ascii) (c : ascii) :
  read (pre ++ c :: rest) (List.length pre) = Ok c.
Proof.
  unfold read. rewrite <- app_assoc. rewrite nth_error_app2 by lia.
  now rewrite Nat.sub_diag.
Qed.

Lemma is_char_true (c d : ascii) : is_char c d = true -> c = d.
Proof. apply Ascii.eqb_eq. Qed.

Lemma isdigit_not_NUL (c : ascii) : isdigit c = true -> c <> NUL.
Proof. intros H ->. discriminate H. Qed.

Lemma strlen_le_length (expr : list ascii) : (strlen expr <= List.length expr)%nat.
Proof.
  induction expr as [|c rest IH]; simpl; [lia|].
  destruct (is_char c NUL); lia.
Qed.

Lemma strlen_app_no_NUL (pre rest : list ascii) :
  Forall (fun c => c <> NUL) pre ->
  strlen (pre ++ rest) = (List.length pre + strlen rest)%nat.
Proof.
  induction 1 as [|c pre Hc _ IH]; simpl; [reflexivity|].
  destruct (is_char c NUL) eqn:E; [apply is_char_true in E; contradiction|].
  now rewrite IH.
Qed.

(** ** One step of each function *)

Lemma digits_loop_step fuel expr natural position :
  digits_loop (S fuel) expr natural position =
  (c <- read expr position ;;
   if isdigit c then
     let natural' := Int.sub (Int.add (Int.mul natural 10) (code c)) (code "0") in
     if (strlen expr <=? S position)%nat then Ok (natural', S position)
     else digits_loop fuel expr natural' (S position)
   else Ok (natural, position)).
Proof. reflexivity. Qed.

Lemma get_natural_step fuel expr position :
  get_natural (S fuel) expr position =
  (c0 <- read expr position ;;
   let '(sign, position1) :=
     if is_char c0 "-" then (Int.mul 1 (-1), S position) else (1, position) in
   c1 <- read expr position1 ;;
   '(natural, position2) <-
     (if is_char c1 "(" then
        '(v, q) <- evaluate_expression fuel expr (S position1) ;; Ok (v, S q)
      else digits_loop fuel expr 0 position1) ;;
   Ok (Int.mul natural sign, position2)).
Proof. reflexivity. Qed.

Lemma evaluate_term_step fuel expr position :
  evaluate_term (S fuel) expr position =
  ('(result, position1) <- get_natural fuel expr position ;;
   term_loop fuel expr result position1).
Proof. reflexivity. Qed.

Lemma term_loop_step fuel expr result position :
  term_loop (S fuel) expr result position =
  (operator <- read expr position ;;
   if is_char operator "*" then
     '(v, position1) <- get_natural fuel expr (S position) ;;
     term_loop fuel expr (Int.mul result v) position1
   else if is_char operator "/" then
     '(operand, position1) <- get_natural fuel expr (S position) ;;
     if operand =? 0 then Exit DivisionByZero
     else term_loop fuel expr (Int.div result operand) position1
   else Ok (result, position)).
Proof. reflexivity. Qed.

Lemma evaluate_expression_step fuel expr position :
  evaluate_expression (S fuel) expr position =
  ('(result, position1) <- evaluate_term fuel expr position ;;
   expression_loop fuel expr result position1).
Proof. reflexivity. Qed.

Lemma expression_loop_step fuel expr result position :
  expression_loop (S fuel) expr result position =
  (operator <- read expr position ;;
   if is_char operator "+" then
     '(v, position1) <- evaluate_term fuel expr (S position) ;;
     expression_loop fuel expr (Int.add result v) position1
   else if is_char operator "-" then
     '(v, position1) <- evaluate_term fuel expr (S position) ;;
     expression_loop fuel expr (Int.sub result v) position1
   else Ok (result, position)).
Proof. reflexivity. Qed.

Lemma check_chars_step fuel expr i :
  check_chars (S fuel) expr i =
  (if Z.of_nat i <? scan_bound expr then
     c <- read expr i ;;
     if is_right_char c then check_chars fuel expr (S i)
     else Exit WrongCharacter
   else Ok tt).
Proof. reflexivity. Qed.

#[global] Opaque digits_loop get_natural evaluate_term term_loop
  evaluate_expression expression_loop check_chars.

(** ** The cursor only moves forward and stays next to the text *)

Lemma digits_loop_cursor fuel : forall expr natural position v q,
  digits_loop fuel expr natural position = Ok (v, q) ->
  (position <= q <= List.length expr)%nat.
Proof.
  induction fuel as [|fuel IH]; intros expr natural position v q H;
    [discriminate H|].
  rewrite digits_loop_step in H. run_read H.
  pose proof (read_inside _ _ _ R) as Hin.
  destruct (isdigit a) eqn:D.
  - pose proof (read_end_is_NUL _ _ _ R (isdigit_not_NUL _ D)) as Hlt.
    simpl in H. destruct (strlen expr <=? S position)%nat.
    + injection H as _ <-. lia.
    + apply IH in H. lia.
  - injection H as _ <-. lia.
Qed.

Lemma cursor_all fuel :
  (forall expr position v q,
      get_natural fuel expr position = Ok (v, q) ->
      (position <= q <= S (List.length expr))%nat) /\
  (forall expr position v q,
      evaluate_term fuel expr position = Ok (v, q) ->
      (position <= q <= List.length expr)%nat) /\
  (forall expr result position v q,
      term_loop fuel expr result position = Ok (v, q) ->
      (position <= q <= List.length expr)%nat) /\
  (forall expr position v q,
      evaluate_expression fuel expr position = Ok (v, q) ->
      (position <= q <= List.length expr)%nat) /\
  (forall expr result position v q,
      expression_loop fuel expr result position = Ok (v, q) ->
      (position <= q <= List.length expr)%nat).
Proof.
  induction fuel as [|fuel (IHn & IHt & IHtl & IHe & IHel)];
    [split; [|split; [|split; [|split]]]; intros; discriminate|].
  split; [|split; [|split; [|split]]].
  - intros expr position v q H. rewrite get_natural_step in H.
    run_read H. pose proof (read_inside _ _ _ R) as Hin.
    destruct (is_char a "-").
    + run_read H. pose proof (read_inside _ _ _ R0) as Hin0.
      destruct (is_char a0 "("); run_bind H.
      * run_bind E. apply IHe in E0. injection E as <- <-.
        injection H as _ <-. lia.
      * apply digits_loop_cursor in E. injection H as _ <-. lia.
    + rewrite R in H. simpl in H.
      destruct (is_char a "("); run_bind H.
      * run_bind E. apply IHe in E0. injection E as <- <-.
        injection H as _ <-. lia.
      * apply digits_loop_cursor in E. injection H as _ <-. lia.
  - intros expr position v q H. rewrite evaluate_term_step in H.
    run_bind H. apply IHn in E. apply IHtl in H. lia.
  - intros expr result position v q H. rewrite term_loop_step in H.
    run_read H. pose proof (read_inside _ _ _ R) as Hin.
    destruct (is_char a "*").
    { run_bind H. apply IHn in E. apply IHtl in H. lia. }
    destruct (is_char a "/").
    { run_bind H. apply IHn in E. destruct (z =? 0); [discriminate|].
      apply IHtl in H. lia. }
    injection H as _ <-. lia.
  - intros expr position v q H. rewrite evaluate_expression_step in H.
    run_bind H. apply IHt in E. apply IHel in H. lia.
  - intros expr result position v q H. rewrite expression_loop_step in H.
    run_read H. pose proof (read_inside _ _ _ R) as Hin.
    destruct (is_char a "+").
    { run_bind H. apply IHt in E. apply IHel in H. lia. }
    destruct (is_char a "-").
    { run_bind H. apply IHt in E. apply IHel in H. lia. }
    injection H as _ <-. lia.
Qed.

(** ** More fuel never changes a finished run *)

Lemma bind_more {A B : Type} (m m' : outcome A) (k k' : A -> outcome B) :
  (m <> OutOfFuel -> m' = m) ->
  (forall a, m = Ok a -> k a <> OutOfFuel -> k' a = k a) ->
  bind m k <> OutOfFuel -> bind m' k' = bind m k.
Proof.
  intros Hm Hk H. destruct m as [a| | |]; simpl in *;
    try (rewrite Hm by discriminate; reflexivity).
  - rewrite Hm by discriminate. simpl. now apply Hk.
  - congruence.
Qed.

Lemma digits_loop_more fuel : forall fuel' expr natural position,
  (fuel <= fuel')%nat ->
  digits_loop fuel expr natural position <> OutOfFuel ->
  digits_loop fuel' expr natural position = digits_loop fuel expr natural position.
Proof.
  induction fuel as [|fuel IH]; intros fuel' expr natural position Hle H;
    [now contradiction H|].
  destruct fuel' as [|fuel']; [lia|].
  rewrite !digits_loop_step in *. apply bind_more; auto.
  intros c _ Hc. destruct (isdigit c); auto. simpl in *.
  destruct (strlen expr <=? S position)%nat; auto.
  apply IH; [lia|auto].
Qed.

Lemma fuel_more fuel :
  (forall fuel' expr position, (fuel <= fuel')%nat ->
      get_natural fuel expr position <> OutOfFuel ->
      get_natural fuel' expr position = get_natural fuel expr position) /\
  (forall fuel' expr position, (fuel <= fuel')%nat ->
      evaluate_term fuel expr position <> OutOfFuel ->
      evaluate_term fuel' expr position = evaluate_term fuel expr position) /\
  (forall fuel' expr result position, (fuel <= fuel')%nat ->
      term_loop fuel expr result position <> OutOfFuel ->
      term_loop fuel' expr result position = term_loop fuel expr result position) /\
  (forall fuel' expr position, (fuel <= fuel')%nat ->
      evaluate_expression fuel expr position <> OutOfFuel ->
      evaluate_expression fuel' expr position =
      evaluate_expression fuel expr position) /\
  (forall fuel' expr result position, (fuel <= fuel')%nat ->
      expression_loop fuel expr result position <> OutOfFuel ->
      expression_loop fuel' expr result position =
      expression_loop fuel expr result position).
Proof.
  induction fuel as [|fuel (IHn & IHt & IHtl & IHe & IHel)];
    [split; [|split; [|split; [|split]]]; intros; exfalso; auto|].
  split; [|split; [|split; [|split]]].
  - intros [|fuel'] expr position Hle H; [lia|].
    rewrite !get_natural_step in *. apply bind_more; auto.
    intros c0 _ H0.
    destruct (if is_char c0 "-" then (Int.mul 1 (-1), S position)
              else (1, position)) as [sign position1].
    apply bind_more; auto. intros c1 _ H1.
    apply bind_more; auto.
    destruct (is_char c1 "(").
    + intros H2. apply bind_more; auto. apply IHe. lia.
    + apply digits_loop_more. lia.
  - intros [|fuel'] expr position Hle H; [lia|].
    rewrite !evaluate_term_step in *. apply bind_more; auto.
    + apply IHn. lia.
    + intros [v p] _. apply IHtl. lia.
  - intros [|fuel'] expr result position Hle H; [lia|].
    rewrite !term_loop_step in *. apply bind_more; auto.
    intros c _ Hc. destruct (is_char c "*").
    { apply bind_more; auto; [apply IHn; lia|].
      intros [v p] _. apply IHtl. lia. }
    destruct (is_char c "/"); auto.
    apply bind_more; auto; [apply IHn; lia|].
    intros [v p] _. destruct (v =? 0); auto. apply IHtl. lia.
  - intros [|fuel'] expr position Hle H; [lia|].
    rewrite !evaluate_expression_step in *. apply bind_more; auto.
    + apply IHt. lia.
    + intros [v p] _. apply IHel. lia.
  - intros [|fuel'] expr result position Hle H; [lia|].
    rewrite !expression_loop_step in *. apply bind_more; auto.
    intros c _ Hc. destruct (is_char c "+").
    { apply bind_more; auto; [apply IHt; lia|].
      intros [v p] _. apply IHel. lia. }
    destruct (is_char c "-"); auto.
    apply bind_more; auto; [apply IHt; lia|].
    intros [v p] _. apply IHel. lia.
Qed.

(** ** Fuel linear in the length of the text is always enough *)

Lemma bind_finishes {A B : Type} (m : outcome A) (k : A -> outcome B) :
  m <> OutOfFuel ->
  (forall a, m = Ok a -> k a <> OutOfFuel) ->
  bind m k <> OutOfFuel.
Proof.
  intros Hm Hk. destruct m as [a| | |]; simpl; try discriminate; auto.
Qed.

Lemma read_finishes expr i : read expr i <> OutOfFuel.
Proof. unfold read. destruct (nth_error _ _); discriminate. Qed.

Lemma is_char_not_NUL (c d : ascii) : is_char c d = true -> d <> NUL -> c <> NUL.
Proof. intros H Hd. apply is_char_true in H. congruence. Qed.

Lemma digits_loop_finishes fuel : forall expr natural position,
  (List.length expr + 1 - position + 1 <= fuel)%nat ->
  digits_loop fuel expr natural position <> OutOfFuel.
Proof.
  induction fuel as [|fuel IH]; intros expr natural position Hf; [lia|].
  rewrite digits_loop_step. apply bind_finishes; [apply read_finishes|].
  intros c R. destruct (isdigit c) eqn:D; [|discriminate]. simpl.
  destruct (strlen expr <=? S position)%nat; [discriminate|].
  pose proof (read_end_is_NUL _ _ _ R (isdigit_not_NUL _ D)).
  apply IH. lia.
Qed.

Lemma all_finish fuel :
  (forall expr position,
      (3 * (List.length expr + 1 - position) + 1 <= fuel)%nat ->
      get_natural fuel expr position <> OutOfFuel) /\
  (forall expr position,
      (3 * (List.length expr + 1 - position) + 2 <= fuel)%nat ->
      evaluate_term fuel expr position <> OutOfFuel) /\
  (forall expr result position,
      (3 * (List.length expr + 1 - position) + 1 <= fuel)%nat ->
      term_loop fuel expr result position <> OutOfFuel) /\
  (forall expr position,
      (3 * (List.length expr + 1 - position) + 3 <= fuel)%nat ->
      evaluate_expression fuel expr position <> OutOfFuel) /\
  (forall expr result position,
      (3 * (List.length expr + 1 - position) + 1 <= fuel)%nat ->
      expression_loop fuel expr result position <> OutOfFuel).
Proof.
  induction fuel as [|fuel (IHn & IHt & IHtl & IHe & IHel)];
    [split; [|split; [|split; [|split]]]; intros; lia|].
  destruct (cursor_all fuel) as (Cn & Ct & Ctl & Ce & Cel).
  split; [|split; [|split; [|split]]].
  - intros expr position Hf. rewrite get_natural_step.
    apply bind_finishes; [apply read_finishes|]. intros c0 R0.
    pose proof (read_inside _ _ _ R0) as Hin0.
    destruct (is_char c0 "-") eqn:M.
    + pose proof (read_end_is_NUL _ _ _ R0
                    (is_char_not_NUL _ _ M ltac:(discriminate))).
      apply bind_finishes; [apply read_finishes|]. intros c1 R1.
      apply bind_finishes; [|intros [? ?] _; discriminate].
      destruct (is_char c1 "(") eqn:P.
      * pose proof (read_end_is_NUL _ _ _ R1
                      (is_char_not_NUL _ _ P ltac:(discriminate))).
        apply bind_finishes; [apply IHe; lia|intros [? ?] _; discriminate].
      * apply digits_loop_finishes. lia.
    + apply bind_finishes; [apply read_finishes|]. intros c1 R1.
      apply bind_finishes; [|intros [? ?] _; discriminate].
      destruct (is_char c1 "(") eqn:P.
      * pose proof (read_end_is_NUL _ _ _ R1
                      (is_char_not_NUL _ _ P ltac:(discriminate))).
        apply bind_finishes; [apply IHe; lia|intros [? ?] _; discriminate].
      * apply digits_loop_finishes. lia.
  - intros expr position Hf. rewrite evaluate_term_step.
    apply bind_finishes; [apply IHn; lia|].
    intros [v q] E. apply Cn in E. apply IHtl. lia.
  - intros expr result position Hf. rewrite term_loop_step.
    apply bind_finishes; [apply read_finishes|]. intros c R.
    destruct (is_char c "*") eqn:M.
    { pose proof (read_end_is_NUL _ _ _ R
                    (is_char_not_NUL _ _ M ltac:(discriminate))).
      apply bind_finishes; [apply IHn; lia|].
      intros [v q] E. apply Cn in E. apply IHtl. lia. }
    destruct (is_char c "/") eqn:D; [|discriminate].
    pose proof (read_end_is_NUL _ _ _ R
                  (is_char_not_NUL _ _ D ltac:(discriminate))).
    apply bind_finishes; [apply IHn; lia|].
    intros [v q] E. apply Cn in E.
    destruct (v =? 0); [discriminate|]. apply IHtl. lia.
  - intros expr position Hf. rewrite evaluate_expression_step.
    apply bind_finishes; [apply IHt; lia|].
    intros [v q] E. apply Ct in E. apply IHel. lia.
  - intros expr result position Hf. rewrite expression_loop_step.
    apply bind_finishes; [apply read_finishes|]. intros c R.
    destruct (is_char c "+") eqn:M.
    { pose proof (read_end_is_NUL _ _ _ R
                    (is_char_not_NUL _ _ M ltac:(discriminate))).
      apply bind_finishes; [apply IHt; lia|].
      intros [v q] E. apply Ct in E. apply IHel. lia. }
    destruct (is_char c "-") eqn:D; [|discriminate].
    pose proof (read_end_is_NUL _ _ _ R
                  (is_char_not_NUL _ _ D ltac:(discriminate))).
    apply bind_finishes; [apply IHt; lia|].
    intros [v q] E. apply Ct in E. apply IHel. lia.
Qed.

Lemma is_right_char_not_NUL (c : ascii) : is_right_char c = true -> c <> NUL.
Proof. intros H ->. discriminate H. Qed.

Lemma check_chars_finishes fuel : forall expr i,
  (List.length expr + 1 - i + 1 <= fuel)%nat ->
  check_chars fuel expr i <> OutOfFuel.
Proof.
  induction fuel as [|fuel IH]; intros expr i Hf; [lia|].
  rewrite check_chars_step.
  destruct (Z.of_nat i <? scan_bound expr); [|discriminate].
  apply bind_finishes; [apply read_finishes|]. intros c R.
  destruct (is_right_char c) eqn:Hc; [|discriminate].
  pose proof (read_end_is_NUL _ _ _ R (is_right_char_not_NUL _ Hc)).
  apply IH. lia.
Qed.

Lemma check_chars_more fuel : forall fuel' expr i,
  (fuel <= fuel')%nat ->
  check_chars fuel expr i <> OutOfFuel ->
  check_chars fuel' expr i = check_chars fuel expr i.
Proof.
  induction fuel as [|fuel IH]; intros fuel' expr i Hle H;
    [now contradiction H|].
  destruct fuel' as [|fuel']; [lia|].
  rewrite !check_chars_step in *.
  destruct (Z.of_nat i <? scan_bound expr); auto.
  apply bind_more; auto.
  intros c _ Hc. destruct (is_right_char c); auto.
  apply IH; [lia|auto].
Qed.

(** ** The text of a syntax tree *)

Lemma digit_char_isdigit (d : digit) : isdigit (digit_char d) = true.
Proof. destruct d; reflexivity. Qed.

Lemma digit_char_not_minus (d : digit) : is_char (digit_char d) "-" = false.
Proof. destruct d; reflexivity. Qed.

Lemma digit_char_not_paren (d : digit) : is_char (digit_char d) "(" = false.
Proof. destruct d; reflexivity. Qed.

Lemma digit_char_right (d : digit) : is_right_char (digit_char d) = true.
Proof. destruct d; reflexivity. Qed.

Lemma show_sign_right negative :
  Forall (fun c => is_right_char c = true) (show_sign negative).
Proof. destruct negative; simpl; auto. Qed.

Lemma show_right :
  (forall f, Forall (fun c => is_right_char c = true) (show_factor f)) /\
  (forall t, Forall (fun c => is_right_char c = true) (show_term t)) /\
  (forall e, Forall (fun c => is_right_char c = true) (show_expression e)).
Proof.
  apply syntax_ind; cbn [show_factor show_term show_expression]; intros;
    repeat first [apply Forall_app; split | apply Forall_cons];
    auto using show_sign_right, digit_char_right.
  apply Forall_forall. intros c Hc. apply in_map_iff in Hc.
  destruct Hc as (x & <- & _). apply digit_char_right.
Qed.

Lemma right_chars_no_NUL (l : list ascii) :
  Forall (fun c => is_right_char c = true) l -> Forall (fun c => c <> NUL) l.
Proof.
  intros H. eapply Forall_impl; [|exact H].
  intros c. apply is_right_char_not_NUL.
Qed.

Lemma read_split (s a b : list ascii) (c : ascii) (p : nat) :
  s = a ++ c :: b -> p = List.length a -> read s p = Ok c.
Proof. intros -> ->. apply read_middle. Qed.

Lemma read_head (s a b : list ascii) (p : nat) :
  s = a ++ b -> p = List.length a -> read s p = Ok (hd NUL b).
Proof.
  intros -> ->. destruct b as [|c b]; simpl.
  - rewrite app_nil_r. apply read_terminator.
  - apply read_middle.
Qed.

(** ** The parser on the text of a syntax tree *)

Lemma digits_loop_literal (ds : list digit) : forall s pre rest acc fuel,
  s = pre ++ map digit_char ds ++ rest ->
  isdigit (hd NUL rest) = false ->
  (List.length pre + List.length ds <= strlen s)%nat ->
  (S (List.length ds) <= fuel)%nat ->
  digits_loop fuel s acc (List.length pre) =
  Ok (fold_left
        (fun a d =>
           Int.sub (Int.add (Int.mul a 10) (code (digit_char d))) (code "0"))
        ds acc,
      (List.length pre + List.length ds)%nat).
Proof.
  induction ds as [|d ds IH]; intros s pre rest acc [|fuel] Hs Hrest Hlen Hfuel;
    try (simpl in Hfuel; lia); rewrite digits_loop_step; simpl in *.
  - rewrite (read_head s pre rest) by auto. simpl. rewrite Hrest.
    now rewrite Nat.add_0_r.
  - rewrite (read_split s pre (map digit_char ds ++ rest) (digit_char d))
      by auto.
    simpl. rewrite digit_char_isdigit.
    destruct (strlen s <=? S (List.length pre))%nat eqn:B.
    + apply Nat.leb_le in B. destruct ds; [|simpl in Hlen; lia].
      simpl. do 2 f_equal. lia.
    + specialize (IH s (pre ++ [digit_char d]) rest
                    (Int.sub (Int.add (Int.mul acc 10) (code (digit_char d)))
                       (code "0")) fuel).
      rewrite length_app in IH. simpl in IH.
      rewrite Nat.add_1_r in IH. rewrite IH; auto; try lia.
      * do 2 f_equal. lia.
      * subst s. now rewrite <- app_assoc.
Qed.

Lemma denote_finished :
  (forall f, (exists v, denote_factor f = Ok v) \/
             denote_factor f = Exit DivisionByZero) /\
  (forall t, (exists v, denote_term t = Ok v) \/
             denote_term t = Exit DivisionByZero) /\
  (forall e, (exists v, denote_expression e = Ok v) \/
             denote_expression e = Exit DivisionByZero).
Proof.
  apply syntax_ind; simpl; intros; eauto;
    repeat match goal with
      | H : (exists _, _) \/ _ |- _ => destruct H as [[? ->] | ->]; simpl
      end; eauto.
  match goal with |- context [if ?b then _ else _] => destruct b end; eauto.
Qed.

Lemma term_loop_stops fuel s result p c :
  read s p = Ok c -> is_char c "*" = false -> is_char c "/" = false ->
  term_loop (S fuel) s result p = Ok (result, p).
Proof.
  intros R M D. rewrite term_loop_step, R. simpl. now rewrite M, D.
Qed.

Lemma expression_loop_stops fuel s result p c :
  read s p = Ok c -> is_char c "+" = false -> is_char c "-" = false ->
  expression_loop (S fuel) s result p = Ok (result, p).
Proof.
  intros R M D. rewrite expression_loop_step, R. simpl. now rewrite M, D.
Qed.

(** ** The four ways through [get_natural] *)

Lemma get_natural_group fuel s p :
  read s p = Ok "("%char ->
  get_natural (S fuel) s p =
  ('(v, q) <- evaluate_expression fuel s (S p) ;; Ok (Int.mul v 1, S q)).
Proof.
  intros R. rewrite get_natural_step, R. cbn [bind].
  change (is_char "(" "-") with false. cbv iota. rewrite R. cbn [bind].
  change (is_char "(" "(") with true. cbv iota.
  destruct (evaluate_expression fuel s (S p)) as [[v q]| | |]; reflexivity.
Qed.

Lemma get_natural_minus_group fuel s p :
  read s p = Ok "-"%char -> read s (S p) = Ok "("%char ->
  get_natural (S fuel) s p =
  ('(v, q) <- evaluate_expression fuel s (S (S p)) ;;
   Ok (Int.mul v (Int.mul 1 (-1)), S q)).
Proof.
  intros R R1. rewrite get_natural_step, R. cbn [bind].
  change (is_char "-" "-") with true. cbv iota. rewrite R1. cbn [bind].
  change (is_char "(" "(") with true. cbv iota.
  destruct (evaluate_expression fuel s (S (S p))) as [[v q]| | |]; reflexivity.
Qed.

Lemma get_natural_digits fuel s p c :
  read s p = Ok c -> is_char c "-" = false -> is_char c "(" = false ->
  get_natural (S fuel) s p =
  ('(natural, q) <- digits_loop fuel s 0 p ;; Ok (Int.mul natural 1, q)).
Proof.
  intros R M P. rewrite get_natural_step, R. cbn [bind]. rewrite M.
  cbv iota. rewrite R. cbn [bind]. rewrite P. reflexivity.
Qed.

Lemma get_natural_minus_digits fuel s p c :
  read s p = Ok "-"%char -> read s (S p) = Ok c -> is_char c "(" = false ->
  get_natural (S fuel) s p =
  ('(natural, q) <- digits_loop fuel s 0 (S p) ;;
   Ok (Int.mul natural (Int.mul 1 (-1)), q)).
Proof.
  intros R R1 P. rewrite get_natural_step, R. cbn [bind].
  change (is_char "-" "-") with true. cbv iota. rewrite R1. cbn [bind].
  rewrite P. reflexivity.
Qed.

Lemma length_snoc {A : Type} (l : list A) (x : A) :
  List.length (l ++ [x]) = S (List.length l).
Proof. rewrite length_app. simpl. lia. Qed.

Lemma parse_tree :
  (forall f s pre rest,
      s = pre ++ show_factor f ++ rest ->
      isdigit (hd NUL rest) = false ->
      (List.length pre + List.length (show_factor f) <= strlen s)%nat ->
      exists n, forall fuel, (n <= fuel)%nat ->
        get_natural fuel s (List.length pre) =
        (v <- denote_factor f ;;
         Ok (v, (List.length pre + List.length (show_factor f))%nat))) /\
  (forall t s pre rest,
      s = pre ++ show_term t ++ rest ->
      isdigit (hd NUL rest) = false ->
      (List.length pre + List.length (show_term t) <= strlen s)%nat ->
      forall R,
      (exists n, forall fuel, (n <= fuel)%nat ->
         (v <- denote_term t ;;
          term_loop fuel s v (List.length pre + List.length (show_term t))) = R) ->
      exists n, forall fuel, (n <= fuel)%nat ->
        evaluate_term fuel s (List.length pre) = R) /\
  (forall e s pre rest,
      s = pre ++ show_expression e ++ rest ->
      isdigit (hd NUL rest) = false ->
      is_char (hd NUL rest) "*" = false ->
      is_char (hd NUL rest) "/" = false ->
      (List.length pre + List.length (show_expression e) <= strlen s)%nat ->
      forall R,
      (exists n, forall fuel, (n <= fuel)%nat ->
         (v <- denote_expression e ;;
          expression_loop fuel s v
            (List.length pre + List.length (show_expression e))) = R) ->
      exists n, forall fuel, (n <= fuel)%nat ->
        evaluate_expression fuel s (List.length pre) = R).
Proof.
  apply syntax_ind.
  - (* a literal *)
    intros negative d ds s pre rest Hs Hrest Hlen.
    exists (S (S (S (List.length ds)))). intros [|fuel] Hfuel; [lia|].
    destruct negative; cbn [show_factor show_sign app] in *.
    + rewrite (get_natural_minus_digits fuel s _ (digit_char d)).
      * rewrite <- (length_snoc pre "-"%char).
        rewrite (digits_loop_literal (d :: ds) s (pre ++ ["-"%char]) rest).
        -- cbn [bind denote_factor machine_sign]. rewrite length_snoc.
           unfold machine_magnitude. do 2 f_equal. lengths.
        -- subst s. now rewrite <- app_assoc.
        -- assumption.
        -- lengths.
        -- lengths.
      * eapply read_split; eauto.
      * eapply read_split; [|symmetry; apply length_snoc].
        subst s. now rewrite <- app_assoc.
      * apply digit_char_not_paren.
    + rewrite (get_natural_digits fuel s _ (digit_char d)).
      * rewrite (digits_loop_literal (d :: ds) s pre rest); auto;
          [|lengths..].
        cbn [bind denote_factor machine_sign]. unfold machine_magnitude.
        do 2 f_equal. lengths.
      * apply (read_split s pre (map digit_char ds ++ rest));
          [exact Hs|reflexivity].
      * apply digit_char_not_minus.
      * apply digit_char_not_paren.
  - (* a group *)
    intros negative e IH s pre rest Hs Hrest Hlen.
    destruct negative; cbn [show_factor show_sign app] in *.
    + destruct (IH s (pre ++ ["-"; "("]%char) (")"%char :: rest)
                  ltac:(same_text)
                  eq_refl eq_refl eq_refl
                  ltac:(lengths)
                  (v <- denote_expression e ;;
                   Ok (v, (List.length (pre ++ ["-"; "("]%char) +
                           List.length (show_expression e))%nat)))
        as [n Hn].
      { exists 1%nat. intros [|fuel] Hfuel; [lia|].
        destruct (denote_expression e); cbn [bind]; auto.
        apply (expression_loop_stops _ _ _ _ ")"%char); [|reflexivity..].
        eapply read_split; [|symmetry; apply length_app]. same_text. }
      exists (S n). intros [|fuel] Hfuel; [lia|].
      rewrite get_natural_minus_group.
      * replace (S (S (List.length pre)))
          with (List.length (pre ++ ["-"; "("]%char))
          by lengths.
        rewrite Hn by lia. cbn [denote_factor machine_sign].
        destruct (denote_expression e); cbn [bind]; auto.
        do 2 f_equal. lengths.
      * eapply read_split; eauto.
      * apply (read_split s (pre ++ ["-"%char])
                 ((show_expression e ++ [")"%char]) ++ rest));
          [same_text|lengths].
    + destruct (IH s (pre ++ ["("]%char) (")"%char :: rest)
                  ltac:(same_text)
                  eq_refl eq_refl eq_refl
                  ltac:(lengths)
                  (v <- denote_expression e ;;
                   Ok (v, (List.length (pre ++ ["("]%char) +
                           List.length (show_expression e))%nat)))
        as [n Hn].
      { exists 1%nat. intros [|fuel] Hfuel; [lia|].
        destruct (denote_expression e); cbn [bind]; auto.
        apply (expression_loop_stops _ _ _ _ ")"%char); [|reflexivity..].
        eapply read_split; [|symmetry; apply length_app]. same_text. }
      exists (S n). intros [|fuel] Hfuel; [lia|].
      rewrite get_natural_group.
      * rewrite <- (length_snoc pre "("%char).
        rewrite Hn by lia. cbn [denote_factor machine_sign].
        destruct (denote_expression e); cbn [bind]; auto.
        do 2 f_equal. lengths.
      * eapply read_split; eauto.
  - (* a term that is one factor *)
    intros f IH s pre rest Hs Hrest Hlen R [n Hn].
    cbn [show_term denote_term] in *.
    destruct (IH s pre rest Hs Hrest Hlen) as [nf Hf].
    exists (S (Nat.max nf n)). intros [|fuel] Hfuel; [lia|].
    rewrite evaluate_term_step, Hf by lia.
    rewrite <- (Hn fuel) by lia.
    destruct (denote_factor f); reflexivity.
  - (* a product *)
    intros t IHt f IHf s pre rest Hs Hrest Hlen R [n Hn].
    cbn [show_term denote_term] in *.
    destruct (IHf s (pre ++ show_term t ++ ["*"%char]) rest
                ltac:(same_text) Hrest ltac:(lengths)) as [nf Hf].
    apply (IHt s pre ("*"%char :: show_factor f ++ rest)
             ltac:(same_text) eq_refl ltac:(lengths)).
    exists (S (Nat.max nf n)). intros [|fuel] Hfuel; [lia|].
    rewrite <- (Hn fuel) by lia.
    destruct (denote_term t) as [a| | |]; cbn [bind]; auto.
    rewrite term_loop_step.
    rewrite (read_split s (pre ++ show_term t) (show_factor f ++ rest)
               "*"%char) by (same_text || lengths).
    cbn [bind]. change (is_char "*" "*") with true. cbv iota.
    replace (S (List.length pre + List.length (show_term t)))
      with (List.length (pre ++ show_term t ++ ["*"%char])) by lengths.
    rewrite Hf by lia.
    destruct (denote_factor f); cbn [bind]; auto.
    f_equal. lengths.
  - (* a quotient *)
    intros t IHt f IHf s pre rest Hs Hrest Hlen R [n Hn].
    cbn [show_term denote_term] in *.
    destruct (IHf s (pre ++ show_term t ++ ["/"%char]) rest
                ltac:(same_text) Hrest ltac:(lengths)) as [nf Hf].
    apply (IHt s pre ("/"%char :: show_factor f ++ rest)
             ltac:(same_text) eq_refl ltac:(lengths)).
    exists (S (Nat.max nf n)). intros [|fuel] Hfuel; [lia|].
    rewrite <- (Hn fuel) by lia.
    destruct (denote_term t) as [a| | |]; cbn [bind]; auto.
    rewrite term_loop_step.
    rewrite (read_split s (pre ++ show_term t) (show_factor f ++ rest)
               "/"%char) by (same_text || lengths).
    cbn [bind]. change (is_char "/" "*") with false.
    change (is_char "/" "/") with true. cbv iota.
    replace (S (List.length pre + List.length (show_term t)))
      with (List.length (pre ++ show_term t ++ ["/"%char])) by lengths.
    rewrite Hf by lia.
    destruct (denote_factor f) as [b| | |]; cbn [bind]; auto.
    destruct (b =? 0); cbn [bind]; auto.
    f_equal. lengths.
  - (* an expression that is one term *)
    intros t IH s pre rest Hs Hrest Hmul Hdiv Hlen R [n Hn].
    cbn [show_expression denote_expression] in *.
    destruct (IH s pre rest Hs Hrest Hlen
                (v <- denote_term t ;;
                 Ok (v, (List.length pre + List.length (show_term t))%nat)))
      as [nt Ht].
    { exists 1%nat. intros [|fuel] Hfuel; [lia|].
      destruct (denote_term t); cbn [bind]; auto.
      apply (term_loop_stops _ _ _ _ (hd NUL rest)); auto.
      apply (read_head s (pre ++ show_term t) rest); [same_text|lengths]. }
    exists (S (Nat.max nt n)). intros [|fuel] Hfuel; [lia|].
    rewrite evaluate_expression_step, Ht by lia.
    rewrite <- (Hn fuel) by lia.
    destruct (denote_term t); reflexivity.
  - (* a sum *)
    intros e IHe t IHt s pre rest Hs Hrest Hmul Hdiv Hlen R [n Hn].
    cbn [show_expression denote_expression] in *.
    destruct (IHt s (pre ++ show_expression e ++ ["+"%char]) rest
                ltac:(same_text) Hrest ltac:(lengths)
                (v <- denote_term t ;;
                 Ok (v, (List.length (pre ++ show_expression e ++ ["+"%char]) +
                         List.length (show_term t))%nat)))
      as [nt Ht].
    { exists 1%nat. intros [|fuel] Hfuel; [lia|].
      destruct (denote_term t); cbn [bind]; auto.
      apply (term_loop_stops _ _ _ _ (hd NUL rest)); auto.
      apply (read_head s ((pre ++ show_expression e ++ ["+"%char]) ++
                          show_term t) rest); [same_text|lengths]. }
    apply (IHe s pre ("+"%char :: show_term t ++ rest)
             ltac:(same_text) eq_refl eq_refl eq_refl ltac:(lengths)).
    exists (S (Nat.max nt n)). intros [|fuel] Hfuel; [lia|].
    rewrite <- (Hn fuel) by lia.
    destruct (denote_expression e) as [a| | |]; cbn [bind]; auto.
    rewrite expression_loop_step.
    rewrite (read_split s (pre ++ show_expression e) (show_term t ++ rest)
               "+"%char) by (same_text || lengths).
    cbn [bind]. change (is_char "+" "+") with true. cbv iota.
    replace (S (List.length pre + List.length (show_expression e)))
      with (List.length (pre ++ show_expression e ++ ["+"%char]))
      by lengths.
    rewrite Ht by lia.
    destruct (denote_term t); cbn [bind]; auto.
    f_equal. lengths.
  - (* a difference *)
    intros e IHe t IHt s pre rest Hs Hrest Hmul Hdiv Hlen R [n Hn].
    cbn [show_expression denote_expression] in *.
    destruct (IHt s (pre ++ show_expression e ++ ["-"%char]) rest
                ltac:(same_text) Hrest ltac:(lengths)
                (v <- denote_term t ;;
                 Ok (v, (List.length (pre ++ show_expression e ++ ["-"%char]) +
                         List.length (show_term t))%nat)))
      as [nt Ht].
    { exists 1%nat. intros [|fuel] Hfuel; [lia|].
      destruct (denote_term t); cbn [bind]; auto.
      apply (term_loop_stops _ _ _ _ (hd NUL rest)); auto.
      apply (read_head s ((pre ++ show_expression e ++ ["-"%char]) ++
                          show_term t) rest); [same_text|lengths]. }
    apply (IHe s pre ("-"%char :: show_term t ++ rest)
             ltac:(same_text) eq_refl eq_refl eq_refl ltac:(lengths)).
    exists (S (Nat.max nt n)). intros [|fuel] Hfuel; [lia|].
    rewrite <- (Hn fuel) by lia.
    destruct (denote_expression e) as [a| | |]; cbn [bind]; auto.
    rewrite expression_loop_step.
    rewrite (read_split s (pre ++ show_expression e) (show_term t ++ rest)
               "-"%char) by (same_text || lengths).
    cbn [bind]. change (is_char "-" "+") with false.
    change (is_char "-" "-") with true. cbv iota.
    replace (S (List.length pre + List.length (show_expression e)))
      with (List.length (pre ++ show_expression e ++ ["-"%char]))
      by lengths.
    rewrite Ht by lia.
    destruct (denote_term t); cbn [bind]; auto.
    f_equal. lengths.
Qed.

(** ** From some fuel to the fuel at hand *)

Lemma evaluate_expression_settles s p R fuel :
  (exists n, forall k, (n <= k)%nat -> evaluate_expression k s p = R) ->
  evaluate_expression fuel s p <> OutOfFuel ->
  evaluate_expression fuel s p = R.
Proof.
  intros [n Hn] Hfuel.
  destruct (fuel_more fuel) as (_ & _ & _ & He & _).
  rewrite <- (Hn (Nat.max n fuel)) by lia.
  symmetry. apply He; [lia|assumption].
Qed.

Lemma evaluate_expression_tree (e : expression) (rest : list ascii) (fuel : nat) :
  isdigit (hd NUL rest) = false ->
  is_char (hd NUL rest) "*" = false ->
  is_char (hd NUL rest) "/" = false ->
  is_char (hd NUL rest) "+" = false ->
  is_char (hd NUL rest) "-" = false ->
  (3 * (List.length (show_expression e ++ rest) + 1) + 3 <= fuel)%nat ->
  evaluate_expression fuel (show_expression e ++ rest) 0 =
  (v <- denote_expression e ;; Ok (v, List.length (show_expression e))).
Proof.
  intros Hdigit Hmul Hdiv Hadd Hsub Hfuel.
  destruct parse_tree as (_ & _ & He).
  apply evaluate_expression_settles.
  - apply (He e (show_expression e ++ rest) [] rest); auto.
    + destruct show_right as (_ & _ & Hr).
      rewrite strlen_app_no_NUL by (apply right_chars_no_NUL, Hr).
      simpl. lia.
    + exists 1%nat. intros [|k] Hk; [lia|].
      destruct (denote_expression e); cbn [bind]; auto.
      apply (expression_loop_stops _ _ _ _ (hd NUL rest)); auto.
      apply (read_head _ (show_expression e) rest); reflexivity.
  - destruct (all_finish fuel) as (_ & _ & _ & Hf & _). apply Hf. lia.
Qed.

(** ** The validator *)

Lemma read_nth (expr : list ascii) (i : nat) (c : ascii) :
  nth_error expr i = Some c -> read expr i = Ok c.
Proof.
  intros H. unfold read. rewrite nth_error_app1.
  - now rewrite H.
  - apply nth_error_Some. congruence.
Qed.

Lemma scan_bound_lt (expr : list ascii) (i : nat) :
  (i + 1 < strlen expr)%nat -> (Z.of_nat i <? scan_bound expr) = true.
Proof.
  intros H. unfold scan_bound. destruct (strlen expr); [lia|].
  apply Z.ltb_lt. lia.
Qed.

Lemma check_chars_rejects (expr : list ascii) (i : nat) (c : ascii) :
  (i + 1 < strlen expr)%nat ->
  nth_error expr i = Some c ->
  is_right_char c = false ->
  forall k j fuel, (j + k = i)%nat -> (k + 1 <= fuel)%nat ->
  check_chars fuel expr j = Exit WrongCharacter.
Proof.
  intros Hi Hc Hbad. induction k as [|k IH]; intros j [|fuel] Hj Hfuel;
    try lia; rewrite check_chars_step.
  - replace j with i by lia. rewrite scan_bound_lt by lia.
    rewrite (read_nth _ _ _ Hc). cbn [bind]. now rewrite Hbad.
  - rewrite scan_bound_lt by lia.
    pose proof (strlen_le_length expr) as Hlen.
    destruct (nth_error expr j) as [c'|] eqn:E.
    + rewrite (read_nth _ _ _ E). cbn [bind].
      destruct (is_right_char c'); [|reflexivity].
      apply IH; lia.
    + apply nth_error_None in E. lia.
Qed.

Lemma check_chars_passes (expr : list ascii) :
  (forall i c, (i + 1 < strlen expr)%nat -> nth_error expr i = Some c ->
               is_right_char c = true) ->
  (1 <= strlen expr)%nat ->
  forall k i fuel, (i + 1 + k = strlen expr)%nat -> (k + 1 <= fuel)%nat ->
  check_chars fuel expr i = Ok tt.
Proof.
  intros Hright Hne. induction k as [|k IH]; intros i [|fuel] Hi Hfuel;
    try lia; rewrite check_chars_step.
  - replace (Z.of_nat i <? scan_bound expr) with false; [reflexivity|].
    symmetry. apply Z.ltb_ge. unfold scan_bound.
    destruct (strlen expr); lia.
  - rewrite scan_bound_lt by lia.
    pose proof (strlen_le_length expr) as Hlen.
    destruct (nth_error expr i) as [c|] eqn:E.
    + rewrite (read_nth _ _ _ E). cbn [bind].
      rewrite (Hright i c) by (auto; lia). apply IH; lia.
    + apply nth_error_None in E. lia.
Qed.

Lemma check_chars_empty (expr : list ascii) (fuel : nat) :
  strlen expr = O -> check_chars (S fuel) expr 0 = Exit WrongCharacter.
Proof.
  intros H. rewrite check_chars_step. unfold scan_bound. rewrite H.
  change (Z.of_nat 0 <? 2 ^ 64 - 1) with true. cbv iota.
  destruct expr as [|c rest]; [reflexivity|].
  simpl in H. destruct (is_char c NUL) eqn:E; [|discriminate].
  apply is_char_true in E. subst c. reflexivity.
Qed.

Lemma show_not_empty :
  (forall f, (1 <= List.length (show_factor f))%nat) /\
  (forall t, (1 <= List.length (show_term t))%nat) /\
  (forall e, (1 <= List.length (show_expression e))%nat).
Proof.
  apply syntax_ind; intros;
    cbn [show_factor show_term show_expression]; lengths.
Qed.

(** ** [calculate] on the text of a syntax tree *)

Lemma calculate_tree (e : expression) (rest : list ascii) (fuel : nat) :
  isdigit (hd NUL rest) = false ->
  is_char (hd NUL rest) "*" = false ->
  is_char (hd NUL rest) "/" = false ->
  is_char (hd NUL rest) "+" = false ->
  is_char (hd NUL rest) "-" = false ->
  (forall i c, (i + 1 < strlen (show_expression e ++ rest))%nat ->
               nth_error (show_expression e ++ rest) i = Some c ->
               is_right_char c = true) ->
  (gas (show_expression e ++ rest) <= fuel)%nat ->
  calculate fuel (show_expression e ++ rest) = denote_expression e.
Proof.
  intros Hdigit Hmul Hdiv Hadd Hsub Hright Hfuel. unfold calculate, gas in *.
  destruct show_right as (_ & _ & Hr). destruct show_not_empty as (_ & _ & Hn).
  pose proof (strlen_app_no_NUL (show_expression e) rest
                (right_chars_no_NUL _ (Hr e))) as Hstrlen.
  pose proof (strlen_le_length (show_expression e ++ rest)) as Hle.
  specialize (Hn e).
  rewrite (check_chars_passes _ Hright ltac:(lia)
             (strlen (show_expression e ++ rest) - 1) 0 fuel) by lia.
  cbn [bind]. rewrite evaluate_expression_tree by (auto; lia).
  destruct (denote_expression e); reflexivity.
Qed.

(** ** Machine arithmetic against standard arithmetic *)

Lemma int_wrap_add_l (a b : Z) :
  Int.int_wrap (Int.int_wrap a + b) = Int.int_wrap (a + b).
Proof.
  unfold Int.int_wrap.
  replace ((a + 2 ^ 31) mod 2 ^ 32 - 2 ^ 31 + b + 2 ^ 31)
    with ((a + 2 ^ 31) mod 2 ^ 32 + b) by lia.
  rewrite Zplus_mod_idemp_l. do 2 f_equal. lia.
Qed.

Lemma digit_code (d : digit) : code (digit_char d) = code "0" + digit_value d.
Proof. destruct d; reflexivity. Qed.

Lemma digit_value_bounds (d : digit) : 0 <= digit_value d <= 9.
Proof. destruct d; simpl; lia. Qed.

Lemma machine_digit_step (acc : Z) (d : digit) :
  Int.sub (Int.add (Int.mul acc 10) (code (digit_char d))) (code "0") =
  Int.int_wrap (acc * 10 + digit_value d).
Proof.
  unfold Int.sub, Int.add, Int.mul. rewrite digit_code.
  rewrite int_wrap_add_l.
  replace (Int.int_wrap (acc * 10 + (code "0" + digit_value d)) - code "0")
    with (Int.int_wrap (acc * 10 + (code "0" + digit_value d)) + - code "0")
    by lia.
  rewrite int_wrap_add_l. f_equal. lia.
Qed.

Lemma magnitude_grows (ds : list digit) : forall acc,
  0 <= acc ->
  acc <= fold_left (fun a d => a * 10 + digit_value d) ds acc.
Proof.
  induction ds as [|d ds IH]; intros acc Hacc; simpl; [lia|].
  pose proof (digit_value_bounds d).
  specialize (IH (acc * 10 + digit_value d)). lia.
Qed.

Lemma machine_magnitude_exact (ds : list digit) : forall acc,
  0 <= acc ->
  Int.in_range (fold_left (fun a d => a * 10 + digit_value d) ds acc) ->
  fold_left
    (fun a d =>
       Int.sub (Int.add (Int.mul a 10) (code (digit_char d))) (code "0"))
    ds acc =
  fold_left (fun a d => a * 10 + digit_value d) ds acc.
Proof.
  induction ds as [|d ds IH]; intros acc Hacc Hfit; simpl in *; [reflexivity|].
  pose proof (digit_value_bounds d).
  pose proof (magnitude_grows ds (acc * 10 + digit_value d) ltac:(lia)).
  rewrite machine_digit_step, int_wrap_small.
  - apply IH; [lia|assumption].
  - unfold Int.in_range, Int.min_signed, Int.max_signed in *. lia.
Qed.

Lemma magnitude_nonnegative (ds : list digit) : 0 <= magnitude ds.
Proof. apply (magnitude_grows ds 0). lia. Qed.

Lemma machine_sign_exact (negative : bool) (z : Z) :
  Int.in_range (signed negative z) ->
  Int.mul z (machine_sign negative) = signed negative z.
Proof.
  intros H. unfold Int.mul.
  destruct negative; cbn [machine_sign signed] in *.
  - change (Int.mul 1 (-1)) with (-1).
    replace (z * -1) with (- z) by lia. now apply int_wrap_small.
  - rewrite Z.mul_1_r. now apply int_wrap_small.
Qed.

Lemma denote_value :
  (forall f v, fits_factor f = true -> value_factor f = Some v ->
               denote_factor f = Ok v) /\
  (forall t v, fits_term t = true -> value_term t = Some v ->
               denote_term t = Ok v) /\
  (forall e v, fits_expression e = true -> value_expression e = Some v ->
               denote_expression e = Ok v).
Proof.
  apply syntax_ind.
  - intros negative d ds v Hfit Hv.
    cbn [fits_factor value_factor denote_factor] in *.
    injection Hv as <-. apply in_rangeb_spec in Hfit.
    pose proof (magnitude_nonnegative (d :: ds)) as Hpos.
    unfold machine_magnitude.
    rewrite machine_magnitude_exact by (auto; lia).
    fold (magnitude (d :: ds)). f_equal. apply machine_sign_exact.
    unfold Int.in_range, Int.min_signed, Int.max_signed in *.
    destruct negative; simpl; lia.
  - intros negative e IH v Hfit Hv.
    cbn [fits_factor value_factor denote_factor] in *.
    apply andb_true_iff in Hfit. destruct Hfit as [He Hr].
    destruct (value_expression e) as [a|]; [|discriminate].
    simpl in Hv, Hr. injection Hv as <-.
    rewrite (IH a) by auto. cbn [bind]. f_equal.
    apply machine_sign_exact. now apply in_rangeb_spec.
  - intros f IH v Hfit Hv. now apply IH.
  - intros t IHt f IHf v Hfit Hv.
    cbn [fits_term value_term denote_term] in *.
    apply andb_true_iff in Hfit. destruct Hfit as [Hfit Hr].
    apply andb_true_iff in Hfit. destruct Hfit as [Ht Hf].
    destruct (value_term t) as [a|]; [|discriminate].
    destruct (value_factor f) as [b|]; [|discriminate].
    simpl in Hv, Hr. injection Hv as <-.
    rewrite (IHt a), (IHf b) by auto. cbn [bind]. f_equal.
    apply int_wrap_small. now apply in_rangeb_spec.
  - intros t IHt f IHf v Hfit Hv.
    cbn [fits_term value_term denote_term] in *.
    apply andb_true_iff in Hfit. destruct Hfit as [Hfit Hr].
    apply andb_true_iff in Hfit. destruct Hfit as [Ht Hf].
    destruct (value_term t) as [a|]; [|discriminate].
    destruct (value_factor f) as [b|]; [|discriminate].
    simpl in Hv, Hr. rewrite (IHt a), (IHf b) by auto. cbn [bind].
    destruct (b =? 0); [discriminate|]. injection Hv as <-. f_equal.
    apply int_wrap_small. now apply in_rangeb_spec.
  - intros t IH v Hfit Hv. now apply IH.
  - intros e IHe t IHt v Hfit Hv.
    cbn [fits_expression value_expression denote_expression] in *.
    apply andb_true_iff in Hfit. destruct Hfit as [Hfit Hr].
    apply andb_true_iff in Hfit. destruct Hfit as [He Ht].
    destruct (value_expression e) as [a|]; [|discriminate].
    destruct (value_term t) as [b|]; [|discriminate].
    simpl in Hv, Hr. injection Hv as <-.
    rewrite (IHe a), (IHt b) by auto. cbn [bind]. f_equal.
    apply int_wrap_small. now apply in_rangeb_spec.
  - intros e IHe t IHt v Hfit Hv.
    cbn [fits_expression value_expression denote_expression] in *.
    apply andb_true_iff in Hfit. destruct Hfit as [Hfit Hr].
    apply andb_true_iff in Hfit. destruct Hfit as [He Ht].
    destruct (value_expression e) as [a|]; [|discriminate].
    destruct (value_term t) as [b|]; [|discriminate].
    simpl in Hv, Hr. injection Hv as <-.
    rewrite (IHe a), (IHt b) by auto. cbn [bind]. f_equal.
    apply int_wrap_small. now apply in_rangeb_spec.
Qed.

(** ** A zero divisor anywhere in the tree *)


(** ** Division in machine integers *)

Lemma quot_in_range (a b : Z) :
  Int.in_range a -> b <> 0 ->
  ~ (a = Int.min_signed /\ b = -1) ->
  Int.in_range (Z.quot a b).
Proof.
  unfold Int.in_range, Int.min_signed, Int.max_signed. intros Ha Hb Hcorner.
  pose proof (Z.quot_rem a b Hb) as Hqr.
  pose proof (Z.rem_bound_abs a b Hb) as Hr.
  pose proof (Z.rem_sign_mul a b Hb) as Hs.
  destruct (Z.eq_dec b (-1)) as [->|Hb1].
  - change (-1) with (Z.opp 1) in *.
    rewrite Z.quot_opp_r, Z.quot_1_r by lia. lia.
  - assert (Habs : Z.abs (Z.quot a b) <= Z.abs a).
    { rewrite <- Z.quot_abs by lia.
      rewrite Z.quot_div_nonneg by lia.
      apply Z.div_le_upper_bound; [lia|]. nia. }
    destruct (Z.eq_dec b 1) as [->|Hb2]; [rewrite Z.quot_1_r; lia|].
    assert (Hhalf : 2 * Z.abs (Z.quot a b) <= Z.abs a).
    { rewrite <- Z.quot_abs by lia. rewrite Z.quot_div_nonneg by lia.
      pose proof (Z.mul_div_le (Z.abs a) (Z.abs b) ltac:(lia)).
      assert (0 <= Z.abs a / Z.abs b) by (apply Z.div_pos; lia).
      nia. }
    lia.
Qed.

Lemma quot_truncates (a b : Z) :
  b <> 0 ->
  Z.abs (a - b * Z.quot a b) < Z.abs b /\ 0 <= (a - b * Z.quot a b) * a.
Proof.
  intros Hb. pose proof (Z.quot_rem a b Hb) as Hqr.
  replace (a - b * Z.quot a b) with (Z.rem a b) by lia.
  split; [apply Z.rem_bound_abs, Hb|apply Z.rem_sign_mul, Hb].
Qed.

(** ** [calculate] on well-formed text, with and without a remainder *)

Lemma right_chars_validate (s : list ascii) :
  Forall (fun c => is_right_char c = true) s ->
  forall i c, (i + 1 < strlen s)%nat -> nth_error s i = Some c ->
              is_right_char c = true.
Proof.
  intros H i c _ Hc. apply nth_error_In in Hc.
  rewrite Forall_forall in H. now apply H.
Qed.

Lemma calculate_show (e : expression) (fuel : nat) :
  (gas (show_expression e) <= fuel)%nat ->
  calculate fuel (show_expression e) = denote_expression e.
Proof.
  intros Hfuel. rewrite <- (app_nil_r (show_expression e)) in *.
  apply calculate_tree; auto.
  apply right_chars_validate. rewrite app_nil_r.
  destruct show_right as (_ & _ & Hr). apply Hr.
Qed.

Lemma calculate_show_then (e : expression) (c : ascii) (rest : list ascii)
  (fuel : nat) :
  isdigit c = false ->
  is_char c "*" = false -> is_char c "/" = false ->
  is_char c "+" = false -> is_char c "-" = false ->
  Forall (fun x => is_right_char x = true) (c :: rest) ->
  (gas (show_expression e ++ c :: rest) <= fuel)%nat ->
  calculate fuel (show_expression e ++ c :: rest) = denote_expression e.
Proof.
  intros Hdigit Hmul Hdiv Hadd Hsub Hright Hfuel.
  apply calculate_tree; auto.
  apply right_chars_validate. apply Forall_app. split; [|assumption].
  destruct show_right as (_ & _ & Hr). apply Hr.
Qed.

Lemma calculate_more (expr : list ascii) (fuel : nat) :
  (gas expr <= fuel)%nat ->
  calculate fuel expr <> OutOfFuel /\
  calculate fuel expr = calculate (gas expr) expr.
Proof.
  intros Hfuel. unfold calculate, gas in *.
  destruct (all_finish (3 * List.length expr + 9)) as (_ & _ & _ & He & _).
  destruct (fuel_more (3 * List.length expr + 9)) as (_ & _ & _ & Hm & _).
  rewrite (check_chars_more (3 * List.length expr + 9) fuel expr 0)
    by (auto; apply check_chars_finishes; lia).
  rewrite (Hm fuel expr 0%nat) by (auto; apply He; lia).
  split; [|reflexivity].
  apply bind_finishes; [apply check_chars_finishes; lia|]. intros _ _.
  apply bind_finishes; [apply He; lia|]. intros [v q] _. discriminate.
Qed.

(** ** Every value returned is an [int] *)

Lemma get_natural_int fuel expr position v q :
  get_natural fuel expr position = Ok (v, q) -> Int.in_range v.
Proof.
  destruct fuel as [|fuel]; [discriminate|].
  rewrite get_natural_step. intros H. run_read H.
  destruct (if is_char a "-" then (Int.mul 1 (-1), S position)
            else (1, position)) as [sign position1].
  run_read H. run_bind H. injection H as <- _. apply int_wrap_in_range.
Qed.

Lemma term_loop_int fuel : forall expr result position v q,
  Int.in_range result ->
  term_loop fuel expr result position = Ok (v, q) -> Int.in_range v.
Proof.
  induction fuel as [|fuel IH]; intros expr result position v q Hr H;
    [discriminate|].
  rewrite term_loop_step in H. run_read H.
  destruct (is_char a "*").
  { run_bind H. eapply IH; [|exact H]. apply int_wrap_in_range. }
  destruct (is_char a "/").
  { run_bind H. destruct (z =? 0); [discriminate|].
    eapply IH; [|exact H]. apply int_wrap_in_range. }
  injection H as <- _. exact Hr.
Qed.

Lemma evaluate_term_int fuel expr position v q :
  evaluate_term fuel expr position = Ok (v, q) -> Int.in_range v.
Proof.
  destruct fuel as [|fuel]; [discriminate|].
  rewrite evaluate_term_step. intros H. run_bind H.
  eapply term_loop_int; [|exact H]. eapply get_natural_int; eassumption.
Qed.

Lemma expression_loop_int fuel : forall expr result position v q,
  Int.in_range result ->
  expression_loop fuel expr result position = Ok (v, q) -> Int.in_range v.
Proof.
  induction fuel as [|fuel IH]; intros expr result position v q Hr H;
    [discriminate|].
  rewrite expression_loop_step in H. run_read H.
  destruct (is_char a "+").
  { run_bind H. eapply IH; [|exact H]. apply int_wrap_in_range. }
  destruct (is_char a "-").
  { run_bind H. eapply IH; [|exact H]. apply int_wrap_in_range. }
  injection H as <- _. exact Hr.
Qed.

Lemma evaluate_expression_int fuel expr position v q :
  evaluate_expression fuel expr position = Ok (v, q) -> Int.in_range v.
Proof.
  destruct fuel as [|fuel]; [discriminate|].
  rewrite evaluate_expression_step. intros H. run_bind H.
  eapply expression_loop_int; [|exact H]. eapply evaluate_term_int; eassumption.
Qed.

(** ** The assertions of the repository's tests

    The runs of [test_get_natural], [test_evaluate_term],
    [test_evaluate_expression] and [test_calculate], with the value each
    assertion expects.  The third input of [test_calculate] never closes
    its first parenthesis: the run reads outside the string. *)

Example test_get_natural_values :
  get_natural 20 (text "-1") 0 = Ok (-1, 2%nat) /\
  get_natural 20 (text "8.0") 0 = Ok (8, 1%nat) /\
  get_natural 20 (text "2f") 0 = Ok (2, 1%nat) /\
  get_natural 20 (text "xf") 0 = Ok (0, 0%nat) /\
  get_natural 20 (text "(1)") 0 = Ok (1, 3%nat) /\
  get_natural 20 (text "(1+1)") 0 = Ok (2, 5%nat) /\
  get_natural 20 (text "((-1)+1)") 0 = Ok (0, 8%nat).
Proof. repeat split; vm_compute; reflexivity. Qed.

Example test_evaluate_term_values :
  evaluate_term 20 (text "1*2") 0 = Ok (2, 3%nat) /\
  evaluate_term 20 (text "-3*4") 0 = Ok (-12, 4%nat) /\
  evaluate_term 20 (text "-1*-4") 0 = Ok (4, 5%nat) /\
  evaluate_term 20 (text "0*-4") 0 = Ok (0, 4%nat).
Proof. repeat split; vm_compute; reflexivity. Qed.

Example test_evaluate_expression_values :
  evaluate_expression 40 (text "1+2") 0 = Ok (3, 3%nat) /\
  evaluate_expression 40 (text "3+2*1") 0 = Ok (5, 5%nat) /\
  evaluate_expression 40 (text "1*4+2") 0 = Ok (6, 5%nat) /\
  evaluate_expression 40 (text "4*4-3*2") 0 = Ok (10, 7%nat) /\
  evaluate_expression 40 (text "0*4-3*2+1") 0 = Ok (-5, 9%nat).
Proof. repeat split; vm_compute; reflexivity. Qed.

Example test_calculate_values :
  run "(1+3*(-4))/2" = Ok (-5) /\
  run "(1*(-2))*(-2)-1*(2+4*2)/3+1" = Ok 2 /\
  run "(1*(-1+2*1)/3" = Fault /\
  run "2/2" = Ok 1 /\
  run "1+2/(1*3)-2" = Ok (-1).
Proof. repeat split; vm_compute; reflexivity. Qed.

(** * The properties of the specification *)

(** C1, as amended.  For every well-formed expression (a syntax tree of
    digits, the four operators, unary minus and balanced parentheses) whose
    literals and intermediate results all fit in an [int] and in which no
    division has a zero right operand, [calculate] on its text terminates
    and returns the value of standard arithmetic: products and quotients
    before sums and differences, each chain from left to right.  The five
    cases of the specification evaluate as it says. *)
Theorem calculate_standard_arithmetic :
  (forall (e : expression) (v : Z) (fuel : nat),
      fits_expression e = true ->
      value_expression e = Some v ->
      (gas (show_expression e) <= fuel)%nat ->
      calculate fuel (show_expression e) = Ok v) /\
  run "2/2" = Ok 1 /\
  run "4*4-3*2" = Ok 10 /\
  run "0*4-3*2+1" = Ok (-5) /\
  run "(1+3*(-4))/2" = Ok (-5) /\
  run "1+2/(1*3)-2" = Ok (-1).
Proof.
  split; [|repeat split; vm_compute; reflexivity].
  intros e v fuel Hfit Hv Hfuel.
  rewrite calculate_show by assumption.
  destruct denote_value as (_ & _ & He). now apply He.
Qed.

Lemma calculate_standard_arithmetic_witness :
  show_expression
    (ETerm (TDiv
       (TFactor (Group false
          (EAdd (ETerm (TFactor (Lit false D1 [])))
                (TMul (TFactor (Lit false D3 []))
                      (Group false (ETerm (TFactor (Lit true D4 []))))))))
       (Lit false D2 []))) = text "(1+3*(-4))/2" /\
  calculate 50 (text "(1+3*(-4))/2") = Ok (-5).
Proof.
  split; [reflexivity|].
  apply (proj1 calculate_standard_arithmetic
           (ETerm (TDiv
              (TFactor (Group false
                 (EAdd (ETerm (TFactor (Lit false D1 [])))
                       (TMul (TFactor (Lit false D3 []))
                             (Group false (ETerm (TFactor (Lit true D4 []))))))))
              (Lit false D2 []))) (-5) 50%nat).
  - reflexivity.
  - reflexivity.
  - vm_compute. lia.
Defined.

(** C1, the claim as stated fails: the well-formed text 2147483648 has the
    standard value 2147483648, which is no [int], and [calculate] returns
    -2147483648. *)
Lemma calculate_literal_overflow :
  show_expression (ETerm (TFactor (Lit false D2 [D1; D4; D7; D4; D8; D3; D6; D4; D8])))
  = text "2147483648" /\
  value_expression (ETerm (TFactor (Lit false D2 [D1; D4; D7; D4; D8; D3; D6; D4; D8])))
  = Some 2147483648 /\
  Int.in_rangeb 2147483648 = false /\
  run "2147483648" = Ok (-2147483648) /\
  run "2147483648" <> Ok 2147483648.
Proof. repeat split; try (vm_compute; reflexivity). vm_compute. discriminate. Qed.

(** C2, as amended.  If a character at any position but the last of the
    string is outside the set of digits, the four operators and the two
    parentheses, the validator of [calculate] reports the wrong character
    and the run ends there, before any parsing, with no numeric result.
    (The loop stops one short of the length: the last character is not
    inspected.) *)
Theorem wrong_character_before_last_is_rejected
  (expr : list ascii) (i : nat) (c : ascii) (fuel : nat) :
  (i + 1 < strlen expr)%nat ->
  nth_error expr i = Some c ->
  is_right_char c = false ->
  (gas expr <= fuel)%nat ->
  check_chars fuel expr 0 = Exit WrongCharacter /\
  calculate fuel expr = Exit WrongCharacter.
Proof.
  intros Hi Hc Hbad Hfuel.
  assert (H : check_chars fuel expr 0 = Exit WrongCharacter).
  { apply (check_chars_rejects expr i c Hi Hc Hbad i 0%nat fuel); [lia|].
    pose proof (strlen_le_length expr). unfold gas in Hfuel. lia. }
  split; [exact H|]. unfold calculate. now rewrite H.
Qed.

Lemma wrong_character_before_last_is_rejected_witness :
  calculate (gas (text "a1+")) (text "a1+") = Exit WrongCharacter.
Proof.
  apply (wrong_character_before_last_is_rejected
           (text "a1+") 0 "a"%char (gas (text "a1+"))).
  - vm_compute. lia.
  - reflexivity.
  - reflexivity.
  - apply le_n.
Defined.

(** C2, the claim as stated fails: the letter a in the last position of the
    text 1+2a is outside the set, and [calculate] returns 3. *)
Lemma wrong_last_character_is_accepted :
  List.length (text "1+2a") = 4%nat /\
  nth_error (text "1+2a") 3 = Some "a"%char /\
  is_right_char "a" = false /\
  run "1+2a" = Ok 3 /\
  run "1+2a" <> Exit WrongCharacter.
Proof. repeat split; try (vm_compute; reflexivity). vm_compute. discriminate. Qed.



(** C4.  When the character at the cursor is neither a minus, an opening
    parenthesis nor a digit, [get_natural] returns the value 0 with the
    cursor where it was, as an ordinary result. *)
Theorem get_natural_zero_fallback
  (fuel : nat) (expr : list ascii) (position : nat) (c : ascii) :
  read expr position = Ok c ->
  is_char c "-" = false ->
  is_char c "(" = false ->
  isdigit c = false ->
  get_natural (S (S fuel)) expr position = Ok (0, position).
Proof.
  intros R M P D.
  rewrite (get_natural_digits _ _ _ c) by assumption.
  rewrite digits_loop_step, R. cbn [bind]. rewrite D. reflexivity.
Qed.

Lemma get_natural_zero_fallback_witness :
  get_natural 2 (text "xf") 0 = Ok (0, 0%nat).
Proof.
  apply (get_natural_zero_fallback 0 (text "xf") 0 "x"%char); reflexivity.
Defined.

(** C5, as amended.  When a term combines its running result a with a
    factor b by a slash, b nonzero and the pair not (INT_MIN, -1), the new
    result is the quotient truncated toward zero: what is left of a is
    smaller in magnitude than b and has the sign of a.  So 7/2 evaluates
    to 3 and -7/2 to -3. *)
Theorem division_truncates_toward_zero :
  (forall fuel expr a b position position1,
      Int.in_range a -> Int.in_range b -> b <> 0 ->
      ~ (a = Int.min_signed /\ b = -1) ->
      read expr position = Ok "/"%char ->
      get_natural fuel expr (S position) = Ok (b, position1) ->
      term_loop (S fuel) expr a position =
      term_loop fuel expr (Z.quot a b) position1 /\
      Z.abs (a - b * Z.quot a b) < Z.abs b /\
      0 <= (a - b * Z.quot a b) * a) /\
  run "7/2" = Ok 3 /\
  run "-7/2" = Ok (-3).
Proof.
  split; [|split; vm_compute; reflexivity].
  intros fuel expr a b position position1 Ha Hb Hnz Hcorner R G.
  split; [|now apply quot_truncates].
  rewrite term_loop_step, R. cbn [bind].
  change (is_char "/" "*") with false. change (is_char "/" "/") with true.
  cbv iota. rewrite G. cbn [bind].
  destruct (b =? 0) eqn:E; [apply Z.eqb_eq in E; contradiction|].
  unfold Int.div. rewrite int_wrap_small; [reflexivity|].
  now apply quot_in_range.
Qed.

Lemma division_truncates_toward_zero_witness :
  term_loop 3 (text "-7/2") (-7) 2 = term_loop 2 (text "-7/2") (-3) 4.
Proof.
  apply (proj1 division_truncates_toward_zero
           2%nat (text "-7/2") (-7) 2 2%nat 4%nat).
  - unfold Int.in_range, Int.min_signed, Int.max_signed. lia.
  - unfold Int.in_range, Int.min_signed, Int.max_signed. lia.
  - lia.
  - lia.
  - reflexivity.
  - reflexivity.
Defined.

(** C5, the claim as stated fails: in the text (0-2147483647-1)/-1 the
    term has the int -2147483648 as its result when it meets the slash, and
    the factor after the slash is the nonzero int -1; their quotient
    truncated toward zero is 2147483648, which is no [int], so that no
    result of the term can be that quotient. *)
Lemma division_overflow_at_min_int :
  get_natural 40 (text "(0-2147483647-1)/-1") 0 = Ok (-2147483648, 16%nat) /\
  read (text "(0-2147483647-1)/-1") 16 = Ok "/"%char /\
  get_natural 2 (text "(0-2147483647-1)/-1") 17 = Ok (-1, 19%nat) /\
  Int.in_range (-2147483648) /\
  Int.in_range (-1) /\
  Z.quot (-2147483648) (-1) = 2147483648 /\
  Int.in_rangeb (Z.quot (-2147483648) (-1)) = false /\
  (forall r : Z, Int.in_range r -> r <> Z.quot (-2147483648) (-1)).
Proof.
  split; [vm_compute; reflexivity|].
  split; [reflexivity|].
  split; [reflexivity|].
  split; [unfold Int.in_range, Int.min_signed, Int.max_signed; lia|].
  split; [unfold Int.in_range, Int.min_signed, Int.max_signed; lia|].
  split; [reflexivity|].
  split; [reflexivity|].
  intros r Hr. change (Z.quot (-2147483648) (-1)) with 2147483648.
  unfold Int.in_range, Int.min_signed, Int.max_signed in Hr. lia.
Qed.

(** C6.  At an opening parenthesis (after an optional minus) [get_natural]
    steps over it, evaluates an expression, and then moves the cursor one
    further whatever character is there, or none: the result is an ordinary
    one also when the closing parenthesis is missing. *)
Theorem group_closes_unconditionally :
  (forall fuel expr position v q,
      read expr position = Ok "("%char ->
      evaluate_expression fuel expr (S position) = Ok (v, q) ->
      get_natural (S fuel) expr position = Ok (v, S q)) /\
  (forall fuel expr position v q,
      read expr position = Ok "-"%char ->
      read expr (S position) = Ok "("%char ->
      evaluate_expression fuel expr (S (S position)) = Ok (v, q) ->
      get_natural (S fuel) expr position = Ok (Int.mul v (-1), S q)) /\
  get_natural 20 (text "(1+2)") 0 = Ok (3, 5%nat) /\
  get_natural 20 (text "(1+2(") 0 = Ok (3, 5%nat) /\
  get_natural 20 (text "(1+2") 0 = Ok (3, 5%nat) /\
  List.length (text "(1+2") = 4%nat.
Proof.
  split; [|split; [|repeat split; vm_compute; reflexivity]].
  - intros fuel expr position v q R E.
    rewrite get_natural_group, E by assumption. cbn [bind].
    unfold Int.mul. rewrite Z.mul_1_r, int_wrap_small; [reflexivity|].
    eapply evaluate_expression_int; eassumption.
  - intros fuel expr position v q R R1 E.
    rewrite get_natural_minus_group, E by assumption. reflexivity.
Qed.

Lemma group_closes_unconditionally_witness :
  get_natural 20 (text "(1+2") 0 = Ok (3, 5%nat).
Proof.
  apply (proj1 group_closes_unconditionally 19%nat (text "(1+2") 0%nat 3 4%nat).
  - reflexivity.
  - vm_compute. reflexivity.
Defined.

(** C7, at the failing input.  On the one-character text of an opening
    parenthesis [get_natural] returns with the cursor at 2, past the end of
    the text (length 1), and the next read of [evaluate_term] lies outside
    the string; the same happens in the repository's own test input
    (1*(-1+2*1)/3, whose first parenthesis is never closed. *)
Theorem cursor_passes_end_of_text :
  List.length (text "(") = 1%nat /\
  get_natural 20 (text "(") 0 = Ok (0, 2%nat) /\
  read (text "(") 2 = Fault /\
  run "(" = Fault /\
  run "(1*(-1+2*1)/3" = Fault.
Proof. repeat split; vm_compute; reflexivity. Qed.

(** C8, at the failing input.  On the text (( the run does not return:
    the inner [get_natural] comes back with the cursor at 3, past the end
    of the two-character text, and the next read of [evaluate_term] lies
    outside the string, however much fuel the run is given.  From that read
    on C defines nothing, so that nothing bounds the run by the length of
    the input. *)
Theorem evaluation_runs_off_the_string :
  List.length (text "((") = 2%nat /\
  get_natural 30 (text "((") 1 = Ok (0, 3%nat) /\
  read (text "((") 3 = Fault /\
  (forall k : nat,
      evaluate_expression (gas (text "((") + k) (text "((") 0 = Fault) /\
  (forall k : nat, calculate (gas (text "((") + k) (text "((") = Fault).
Proof.
  split; [reflexivity|]. split; [vm_compute; reflexivity|].
  split; [reflexivity|]. split.
  - intros k. destruct (fuel_more (gas (text "(("))) as (_ & _ & _ & He & _).
    rewrite He; [vm_compute; reflexivity|lia|vm_compute; discriminate].
  - intros k.
    rewrite (proj2 (calculate_more (text "((") (gas (text "((") + k)
                      ltac:(lia))).
    vm_compute. reflexivity.
Qed.

(** C9.  [calculate] returns the value of [evaluate_expression] wherever
    its cursor stopped.  When the expression parser stops before the end of
    the input at a character that is neither a plus nor a minus, such as a
    closing parenthesis without its opening one, [calculate] returns the
    value of the expression parsed so far, the same as on that prefix
    alone, and ignores the rest (for a prefix none of whose divisions
    divides INT_MIN by -1): the text 1+2) followed by any allowed
    characters yields 3. *)
Theorem calculate_ignores_text_after_stop :
  (forall (fuel : nat) (expr : list ascii) (v : Z) (q : nat),
      check_chars fuel expr 0 = Ok tt ->
      evaluate_expression fuel expr 0 = Ok (v, q) ->
      calculate fuel expr = Ok v) /\
  (forall (e : expression) (c : ascii) (rest : list ascii) (fuel : nat),
      isdigit c = false ->
      is_char c "*" = false -> is_char c "/" = false ->
      is_char c "+" = false -> is_char c "-" = false ->
      min_by_minus_one_expression e = false ->
      Forall (fun x => is_right_char x = true) (c :: rest) ->
      (gas (show_expression e ++ c :: rest) <= fuel)%nat ->
      calculate fuel (show_expression e ++ c :: rest) = denote_expression e /\
      calculate fuel (show_expression e) = denote_expression e) /\
  (forall (rest : list ascii) (fuel : nat),
      Forall (fun x => is_right_char x = true) rest ->
      (gas (text "1+2)" ++ rest) <= fuel)%nat ->
      calculate fuel (text "1+2)" ++ rest) = Ok 3).
Proof.
  split; [|split].
  - intros fuel expr v q Hcheck Hrun. unfold calculate.
    now rewrite Hcheck, Hrun.
  - intros e c rest fuel Hdigit Hmul Hdiv Hadd Hsub _ Hright Hfuel. split.
    + now apply calculate_show_then.
    + apply calculate_show. unfold gas in *. rewrite length_app in Hfuel. lia.
  - intros rest fuel Hright Hfuel.
    apply (calculate_show_then
             (EAdd (ETerm (TFactor (Lit false D1 []))) (TFactor (Lit false D2 [])))
             ")"%char rest fuel); auto.
Qed.

Lemma calculate_ignores_text_after_stop_witness :
  calculate 40 (text "1+2)*5") = Ok 3.
Proof.
  apply (proj2 (proj2 calculate_ignores_text_after_stop) (text "*5") 40%nat).
  - repeat constructor.
  - vm_compute. lia.
Defined.

(** C10.  A double leading minus is a subtraction from the zero fallback,
    not a folded sign: on the text --3 the factor parser consumes the first
    minus and returns 0, the expression parser subtracts the term after the
    second minus, and [calculate] returns -3. *)
Theorem double_minus_is_subtraction :
  get_natural 20 (text "--3") 0 = Ok (0, 1%nat) /\
  evaluate_term 20 (text "--3") 0 = Ok (0, 1%nat) /\
  read (text "--3") 1 = Ok "-"%char /\
  evaluate_term 20 (text "--3") 2 = Ok (3, 3%nat) /\
  expression_loop 20 (text "--3") 0 1 = Ok (-3, 3%nat) /\
  run "--3" = Ok (-3).
Proof. repeat split; vm_compute; reflexivity. Qed.

(** ** What ends a run early *)

Lemma read_slash_in (expr : list ascii) (i : nat) :
  read expr i = Ok "/"%char -> In "/"%char expr.
Proof.
  intros R.
  pose proof (read_end_is_NUL _ _ _ R ltac:(discriminate)) as Hlt.
  unfold read in R. rewrite nth_error_app1 in R by assumption.
  destruct (nth_error expr i) as [c|] eqn:E; [|discriminate].
  injection R as ->. eapply nth_error_In; eassumption.
Qed.

Lemma read_no_exit (expr : list ascii) (i : nat) (why : failure) :
  read expr i <> Exit why.
Proof. unfold read. destruct (nth_error _ _); discriminate. Qed.

Lemma digits_loop_no_exit fuel : forall expr natural position why,
  digits_loop fuel expr natural position <> Exit why.
Proof.
  induction fuel as [|fuel IH]; intros expr natural position why H;
    [discriminate|].
  rewrite digits_loop_step in H.
  destruct (read expr position) as [c|w| |] eqn:Rposition; try discriminate;
      [|now apply read_no_exit in Rposition]. cbn [bind] in H.
  destruct (isdigit c); [|discriminate]. cbv zeta in H.
  destruct (strlen expr <=? S position)%nat; [discriminate|].
  eapply IH; eassumption.
Qed.

Lemma parsers_exit fuel :
  (forall expr position why,
      get_natural fuel expr position = Exit why ->
      why = DivisionByZero /\ In "/"%char expr) /\
  (forall expr position why,
      evaluate_term fuel expr position = Exit why ->
      why = DivisionByZero /\ In "/"%char expr) /\
  (forall expr result position why,
      term_loop fuel expr result position = Exit why ->
      why = DivisionByZero /\ In "/"%char expr) /\
  (forall expr position why,
      evaluate_expression fuel expr position = Exit why ->
      why = DivisionByZero /\ In "/"%char expr) /\
  (forall expr result position why,
      expression_loop fuel expr result position = Exit why ->
      why = DivisionByZero /\ In "/"%char expr).
Proof.
  induction fuel as [|fuel (IHn & IHt & IHtl & IHe & IHel)];
    [split; [|split; [|split; [|split]]]; intros; discriminate|].
  split; [|split; [|split; [|split]]].
  - intros expr position why H. rewrite get_natural_step in H.
    destruct (read expr position) as [c0|w| |] eqn:Rposition; try discriminate;
      [|now apply read_no_exit in Rposition].
    cbn [bind] in H.
    destruct (if is_char c0 "-" then (Int.mul 1 (-1), S position)
              else (1, position)) as [sign position1].
    destruct (read expr position1) as [c1|w| |] eqn:Rposition1; try discriminate;
      [|now apply read_no_exit in Rposition1].
    cbn [bind] in H. destruct (is_char c1 "(").
    + destruct (evaluate_expression fuel expr (S position1))
        as [[v q]| | |] eqn:E; try discriminate.
      cbn [bind] in H. injection H as <-. eapply IHe; eassumption.
    + destruct (digits_loop fuel expr 0 position1) as [[v q]| | |] eqn:E;
        try discriminate.
      cbn [bind] in H. injection H as <-.
      now apply digits_loop_no_exit in E.
  - intros expr position why H. rewrite evaluate_term_step in H.
    destruct (get_natural fuel expr position) as [[v q]| | |] eqn:E;
      try discriminate; cbn [bind] in H.
    + eapply IHtl; eassumption.
    + injection H as <-. eapply IHn; eassumption.
  - intros expr result position why H. rewrite term_loop_step in H.
    destruct (read expr position) as [c|w| |] eqn:R; try discriminate;
      [|now apply read_no_exit in R].
    cbn [bind] in H. destruct (is_char c "*").
    { destruct (get_natural fuel expr (S position)) as [[v q]| | |] eqn:E;
        try discriminate; cbn [bind] in H.
      - eapply IHtl; eassumption.
      - injection H as <-. eapply IHn; eassumption. }
    destruct (is_char c "/") eqn:D; [|discriminate].
    apply is_char_true in D. subst c.
    destruct (get_natural fuel expr (S position)) as [[v q]| | |] eqn:E;
      try discriminate; cbn [bind] in H.
    + destruct (v =? 0).
      * injection H as <-. split; [reflexivity|].
        eapply read_slash_in; eassumption.
      * eapply IHtl; eassumption.
    + injection H as <-. eapply IHn; eassumption.
  - intros expr position why H. rewrite evaluate_expression_step in H.
    destruct (evaluate_term fuel expr position) as [[v q]| | |] eqn:E;
      try discriminate; cbn [bind] in H.
    + eapply IHel; eassumption.
    + injection H as <-. eapply IHt; eassumption.
  - intros expr result position why H. rewrite expression_loop_step in H.
    destruct (read expr position) as [c|w| |] eqn:R; try discriminate;
      [|now apply read_no_exit in R].
    cbn [bind] in H. destruct (is_char c "+").
    { destruct (evaluate_term fuel expr (S position)) as [[v q]| | |] eqn:E;
        try discriminate; cbn [bind] in H.
      - eapply IHel; eassumption.
      - injection H as <-. eapply IHt; eassumption. }
    destruct (is_char c "-"); [|discriminate].
    destruct (evaluate_term fuel expr (S position)) as [[v q]| | |] eqn:E;
      try discriminate; cbn [bind] in H.
    + eapply IHel; eassumption.
    + injection H as <-. eapply IHt; eassumption.
Qed.

Lemma read_inside_nth (expr : list ascii) (i : nat) (c : ascii) :
  (i < List.length expr)%nat -> read expr i = Ok c -> nth_error expr i = Some c.
Proof.
  intros Hlt R. unfold read in R. rewrite nth_error_app1 in R by assumption.
  destruct (nth_error expr i); [|discriminate]. now injection R as ->.
Qed.

Lemma check_chars_exit fuel : forall expr i why,
  check_chars fuel expr i = Exit why ->
  why = WrongCharacter /\
  (strlen expr = O \/
   exists j c, (j + 1 < strlen expr)%nat /\ nth_error expr j = Some c /\
               is_right_char c = false).
Proof.
  induction fuel as [|fuel IH]; intros expr i why H; [discriminate|].
  rewrite check_chars_step in H.
  destruct (Z.of_nat i <? scan_bound expr) eqn:B; [|discriminate].
  destruct (read expr i) as [c|w| |] eqn:R; try discriminate;
      [|now apply read_no_exit in R].
  cbn [bind] in H. destruct (is_right_char c) eqn:Hc; [eauto|].
  injection H as <-. split; [reflexivity|].
  unfold scan_bound in B. destruct (strlen expr) as [|n] eqn:L; [now left|].
  right. exists i, c. apply Z.ltb_lt in B.
  pose proof (strlen_le_length expr).
  repeat split; [lia| |assumption].
  apply read_inside_nth; [lia|assumption].
Qed.

(** ** The character under the cursor when a level returns *)

Lemma term_loop_stop fuel : forall expr result position v q,
  term_loop fuel expr result position = Ok (v, q) ->
  exists c, read expr q = Ok c /\
            is_char c "*" = false /\ is_char c "/" = false.
Proof.
  induction fuel as [|fuel IH]; intros expr result position v q H;
    [discriminate|].
  rewrite term_loop_step in H. run_read H.
  destruct (is_char a "*") eqn:M.
  { run_bind H. eapply IH; eassumption. }
  destruct (is_char a "/") eqn:D.
  { run_bind H. destruct (z =? 0); [discriminate|]. eapply IH; eassumption. }
  injection H as _ <-. eauto.
Qed.

Lemma evaluate_term_stop fuel expr position v q :
  evaluate_term fuel expr position = Ok (v, q) ->
  exists c, read expr q = Ok c /\
            is_char c "*" = false /\ is_char c "/" = false.
Proof.
  destruct fuel as [|fuel]; [discriminate|].
  rewrite evaluate_term_step. intros H. run_bind H.
  eapply term_loop_stop; eassumption.
Qed.

Lemma expression_loop_stop fuel : forall expr result position v q,
  (exists c, read expr position = Ok c /\
             is_char c "*" = false /\ is_char c "/" = false) ->
  expression_loop fuel expr result position = Ok (v, q) ->
  exists c, read expr q = Ok c /\
            is_char c "*" = false /\ is_char c "/" = false /\
            is_char c "+" = false /\ is_char c "-" = false.
Proof.
  induction fuel as [|fuel IH]; intros expr result position v q Hc H;
    [discriminate|].
  rewrite expression_loop_step in H. run_read H.
  destruct (is_char a "+") eqn:P.
  { run_bind H. eapply IH; [|exact H]. eapply evaluate_term_stop; eassumption. }
  destruct (is_char a "-") eqn:M.
  { run_bind H. eapply IH; [|exact H]. eapply evaluate_term_stop; eassumption. }
  injection H as _ <-. destruct Hc as (c & Rc & Hm & Hd).
  injection Rc as ->. eauto 6.
Qed.

Lemma evaluate_expression_stop fuel expr position v q :
  evaluate_expression fuel expr position = Ok (v, q) ->
  exists c, read expr q = Ok c /\
            is_char c "*" = false /\ is_char c "/" = false /\
            is_char c "+" = false /\ is_char c "-" = false.
Proof.
  destruct fuel as [|fuel]; [discriminate|].
  rewrite evaluate_expression_step. intros H. run_bind H.
  eapply expression_loop_stop; [|exact H].
  eapply evaluate_term_stop; eassumption.
Qed.

(** ** Without an opening parenthesis no read leaves the string *)

Lemma bind_no_fault {A B : Type} (m : outcome A) (k : A -> outcome B) :
  m <> Fault ->
  (forall a, m = Ok a -> k a <> Fault) ->
  bind m k <> Fault.
Proof.
  intros Hm Hk. destruct m as [a| | |]; simpl; try discriminate; auto.
Qed.

Lemma read_in (expr : list ascii) (i : nat) (c : ascii) :
  read expr i = Ok c -> c <> NUL -> In c expr.
Proof.
  intros R Hc. pose proof (read_end_is_NUL _ _ _ R Hc) as Hlt.
  eapply nth_error_In. apply read_inside_nth; eassumption.
Qed.

Lemma read_no_fault (expr : list ascii) (i : nat) :
  (i <= List.length expr)%nat -> read expr i <> Fault.
Proof.
  intros Hle. unfold read.
  destruct (nth_error (expr ++ [NUL]) i) eqn:E; [discriminate|].
  apply nth_error_None in E. rewrite length_app in E. simpl in E. lia.
Qed.

Lemma digits_loop_no_fault fuel : forall expr natural position,
  (position <= List.length expr)%nat ->
  digits_loop fuel expr natural position <> Fault.
Proof.
  induction fuel as [|fuel IH]; intros expr natural position Hp;
    [discriminate|].
  rewrite digits_loop_step.
  apply bind_no_fault; [now apply read_no_fault|]. intros c R.
  destruct (isdigit c) eqn:D; [|discriminate]. cbv zeta.
  destruct (strlen expr <=? S position)%nat; [discriminate|].
  apply IH. apply (read_end_is_NUL _ _ _ R (isdigit_not_NUL _ D)).
Qed.

Lemma get_natural_cursor_no_group fuel expr position v q :
  ~ In "("%char expr ->
  get_natural fuel expr position = Ok (v, q) ->
  (q <= List.length expr)%nat.
Proof.
  intros Hno H. destruct fuel as [|fuel]; [discriminate|].
  rewrite get_natural_step in H. run_read H.
  destruct (if is_char a "-" then (Int.mul 1 (-1), S position)
            else (1, position)) as [sign position1].
  destruct (read expr position1) as [c1| | |] eqn:R1; try discriminate.
  cbn [bind] in H. destruct (is_char c1 "(") eqn:P.
  - apply is_char_true in P. subst c1. exfalso. apply Hno.
    apply (read_in _ _ _ R1). discriminate.
  - run_bind H. injection H as _ <-.
    apply digits_loop_cursor in E. lia.
Qed.

Lemma parsers_no_fault fuel :
  forall expr, ~ In "("%char expr ->
  (forall position, (position <= List.length expr)%nat ->
      get_natural fuel expr position <> Fault) /\
  (forall position, (position <= List.length expr)%nat ->
      evaluate_term fuel expr position <> Fault) /\
  (forall result position, (position <= List.length expr)%nat ->
      term_loop fuel expr result position <> Fault) /\
  (forall position, (position <= List.length expr)%nat ->
      evaluate_expression fuel expr position <> Fault) /\
  (forall result position, (position <= List.length expr)%nat ->
      expression_loop fuel expr result position <> Fault).
Proof.
  induction fuel as [|fuel IH]; intros expr Hno;
    [split; [|split; [|split; [|split]]]; intros; discriminate|].
  destruct (IH expr Hno) as (IHn & IHt & IHtl & IHe & IHel).
  destruct (cursor_all fuel) as (_ & Ct & _ & _ & _).
  split; [|split; [|split; [|split]]].
  - intros position Hp. rewrite get_natural_step.
    apply bind_no_fault; [now apply read_no_fault|]. intros c0 R0.
    assert (Hp1 : forall sign position1,
               (if is_char c0 "-" then (Int.mul 1 (-1), S position)
                else (1, position)) = (sign, position1) ->
               (position1 <= List.length expr)%nat).
    { intros sign position1 E. destruct (is_char c0 "-") eqn:M;
        injection E as _ <-; [|assumption].
      apply (read_end_is_NUL _ _ _ R0).
      apply (is_char_not_NUL _ _ M). discriminate. }
    destruct (if is_char c0 "-" then (Int.mul 1 (-1), S position)
              else (1, position)) as [sign position1].
    specialize (Hp1 sign position1 eq_refl).
    apply bind_no_fault; [now apply read_no_fault|]. intros c1 R1.
    apply bind_no_fault; [|intros [? ?] _; discriminate].
    destruct (is_char c1 "(") eqn:P.
    + apply is_char_true in P. subst c1. exfalso. apply Hno.
      apply (read_in _ _ _ R1). discriminate.
    + now apply digits_loop_no_fault.
  - intros position Hp. rewrite evaluate_term_step.
    apply bind_no_fault; [now apply IHn|]. intros [v q] E.
    apply IHtl. eapply get_natural_cursor_no_group; eassumption.
  - intros result position Hp. rewrite term_loop_step.
    apply bind_no_fault; [now apply read_no_fault|]. intros c R.
    destruct (is_char c "*") eqn:M.
    { pose proof (read_end_is_NUL _ _ _ R
                    (is_char_not_NUL _ _ M ltac:(discriminate))).
      apply bind_no_fault; [apply IHn; lia|]. intros [v q] E.
      apply IHtl. eapply get_natural_cursor_no_group; eassumption. }
    destruct (is_char c "/") eqn:D; [|discriminate].
    pose proof (read_end_is_NUL _ _ _ R
                  (is_char_not_NUL _ _ D ltac:(discriminate))).
    apply bind_no_fault; [apply IHn; lia|]. intros [v q] E.
    destruct (v =? 0); [discriminate|].
    apply IHtl. eapply get_natural_cursor_no_group; eassumption.
  - intros position Hp. rewrite evaluate_expression_step.
    apply bind_no_fault; [now apply IHt|]. intros [v q] E.
    apply IHel. apply Ct in E. lia.
  - intros result position Hp. rewrite expression_loop_step.
    apply bind_no_fault; [now apply read_no_fault|]. intros c R.
    destruct (is_char c "+") eqn:M.
    { pose proof (read_end_is_NUL _ _ _ R
                    (is_char_not_NUL _ _ M ltac:(discriminate))).
      apply bind_no_fault; [apply IHt; lia|]. intros [v q] E.
      apply IHel. apply Ct in E. lia. }
    destruct (is_char c "-") eqn:D; [|discriminate].
    pose proof (read_end_is_NUL _ _ _ R
                  (is_char_not_NUL _ _ D ltac:(discriminate))).
    apply bind_no_fault; [apply IHt; lia|]. intros [v q] E.
    apply IHel. apply Ct in E. lia.
Qed.

Lemma check_chars_no_fault fuel : forall expr i,
  (i <= List.length expr)%nat -> check_chars fuel expr i <> Fault.
Proof.
  induction fuel as [|fuel IH]; intros expr i Hi; [discriminate|].
  rewrite check_chars_step.
  destruct (Z.of_nat i <? scan_bound expr); [|discriminate].
  apply bind_no_fault; [now apply read_no_fault|]. intros c R.
  destruct (is_right_char c) eqn:Hc; [|discriminate].
  apply IH. apply (read_end_is_NUL _ _ _ R (is_right_char_not_NUL _ Hc)).
Qed.

(** ** A run looks at nothing beyond the character where it stops *)

Lemma read_cons_S (c : ascii) (rest : list ascii) (i : nat) :
  read (c :: rest) (S i) = read rest i.
Proof. reflexivity. Qed.

Lemma read_strlen (expr : list ascii) : read expr (strlen expr) = Ok NUL.
Proof.
  induction expr as [|c rest IH]; [reflexivity|]. simpl strlen.
  destruct (is_char c NUL) eqn:E.
  - apply is_char_true in E. now subst c.
  - now rewrite read_cons_S.
Qed.

Lemma read_before_strlen (expr : list ascii) : forall i,
  (i < strlen expr)%nat -> read expr i <> Ok NUL.
Proof.
  induction expr as [|c rest IH]; intros i Hi; simpl in Hi; [lia|].
  destruct (is_char c NUL) eqn:E; [lia|].
  destruct i as [|i].
  - intros H. injection H as ->. discriminate E.
  - rewrite read_cons_S. apply IH. lia.
Qed.

Lemma strlen_leb_agree (expr expr' : list ascii) (q k : nat) :
  (forall i, (i <= q)%nat -> read expr' i = read expr i) ->
  (k <= q)%nat ->
  (strlen expr' <=? k)%nat = (strlen expr <=? k)%nat.
Proof.
  intros Hag Hk.
  destruct (strlen expr <=? k)%nat eqn:E.
  - apply Nat.leb_le in E. apply Nat.leb_le.
    destruct (Nat.le_gt_cases (strlen expr') (strlen expr)) as [|Hgt]; [lia|].
    exfalso. apply (read_before_strlen expr' (strlen expr) Hgt).
    rewrite Hag by lia. apply read_strlen.
  - apply Nat.leb_gt in E. apply Nat.leb_gt.
    destruct (Nat.le_gt_cases (strlen expr') k) as [Hle|]; [|lia].
    exfalso. apply (read_before_strlen expr (strlen expr')); [lia|].
    rewrite <- Hag by lia. apply read_strlen.
Qed.

Lemma digits_loop_local fuel : forall expr expr' natural position v q,
  (forall i, (i <= q)%nat -> read expr' i = read expr i) ->
  digits_loop fuel expr natural position = Ok (v, q) ->
  digits_loop fuel expr' natural position = Ok (v, q).
Proof.
  induction fuel as [|fuel IH]; intros expr expr' natural position v q Hag H;
    [discriminate|].
  pose proof (digits_loop_cursor _ _ _ _ _ _ H) as Hq.
  rewrite digits_loop_step in *. rewrite Hag by lia.
  destruct (read expr position) as [c| | |]; try discriminate.
  cbn [bind] in *. destruct (isdigit c); [|assumption]. cbv zeta in *.
  destruct (strlen expr <=? S position)%nat eqn:B.
  - injection H as <- <-. rewrite (strlen_leb_agree expr expr' (S position))
      by (auto; lia).
    now rewrite B.
  - pose proof (digits_loop_cursor _ _ _ _ _ _ H) as Hq'.
    rewrite (strlen_leb_agree expr expr' q) by (auto; lia).
    rewrite B. now apply (IH expr).
Qed.

Lemma parsers_local fuel :
  (forall expr expr' position v q,
      (forall i, (i <= q)%nat -> read expr' i = read expr i) ->
      get_natural fuel expr position = Ok (v, q) ->
      get_natural fuel expr' position = Ok (v, q)) /\
  (forall expr expr' position v q,
      (forall i, (i <= q)%nat -> read expr' i = read expr i) ->
      evaluate_term fuel expr position = Ok (v, q) ->
      evaluate_term fuel expr' position = Ok (v, q)) /\
  (forall expr expr' result position v q,
      (forall i, (i <= q)%nat -> read expr' i = read expr i) ->
      term_loop fuel expr result position = Ok (v, q) ->
      term_loop fuel expr' result position = Ok (v, q)) /\
  (forall expr expr' position v q,
      (forall i, (i <= q)%nat -> read expr' i = read expr i) ->
      evaluate_expression fuel expr position = Ok (v, q) ->
      evaluate_expression fuel expr' position = Ok (v, q)) /\
  (forall expr expr' result position v q,
      (forall i, (i <= q)%nat -> read expr' i = read expr i) ->
      expression_loop fuel expr result position = Ok (v, q) ->
      expression_loop fuel expr' result position = Ok (v, q)).
Proof.
  induction fuel as [|fuel (IHn & IHt & IHtl & IHe & IHel)];
    [split; [|split; [|split; [|split]]]; intros; discriminate|].
  destruct (cursor_all fuel) as (Cn & Ct & Ctl & Ce & Cel).
  split; [|split; [|split; [|split]]].
  - intros expr expr' position v q Hag H.
    destruct (cursor_all (S fuel)) as (Cn' & _). pose proof (Cn' _ _ _ _ H) as Hq.
    rewrite get_natural_step in *. rewrite Hag by lia.
    destruct (read expr position) as [c0| | |]; try discriminate.
    cbn [bind] in *.
    destruct (if is_char c0 "-" then (Int.mul 1 (-1), S position)
              else (1, position)) as [sign position1].
    destruct (read expr position1) as [c1| | |] eqn:R1; try discriminate.
    cbn [bind] in H.
    destruct (is_char c1 "(") eqn:P.
    + destruct (evaluate_expression fuel expr (S position1))
        as [[v0 q0]| | |] eqn:E; try discriminate.
      cbn [bind] in H. injection H as <- <-.
      pose proof (Ce _ _ _ _ E) as Hq0.
      rewrite Hag, R1 by lia. cbn [bind]. rewrite P.
      rewrite (IHe expr expr' (S position1) v0 q0
                 ltac:(intros; apply Hag; lia) E).
      reflexivity.
    + destruct (digits_loop fuel expr 0 position1) as [[v0 q0]| | |] eqn:E;
        try discriminate.
      cbn [bind] in H. injection H as <- <-.
      pose proof (digits_loop_cursor _ _ _ _ _ _ E) as Hq0.
      rewrite Hag, R1 by lia. cbn [bind]. rewrite P.
      rewrite (digits_loop_local _ expr expr' _ _ _ _ Hag E). reflexivity.
  - intros expr expr' position v q Hag H. rewrite evaluate_term_step in *.
    destruct (get_natural fuel expr position) as [[r p1]| | |] eqn:E;
      try discriminate.
    cbn [bind] in H. pose proof (Ctl _ _ _ _ _ H) as Hq.
    rewrite (IHn expr expr' position r p1 ltac:(intros; apply Hag; lia) E).
    cbn [bind]. now apply (IHtl expr).
  - intros expr expr' result position v q Hag H.
    destruct (cursor_all (S fuel)) as (_ & _ & Ctl' & _).
    pose proof (Ctl' _ _ _ _ _ H) as Hq.
    rewrite term_loop_step in *. rewrite Hag by lia.
    destruct (read expr position) as [c| | |]; try discriminate.
    cbn [bind] in *. destruct (is_char c "*").
    { destruct (get_natural fuel expr (S position)) as [[r p1]| | |] eqn:E;
        try discriminate.
      cbn [bind] in H. pose proof (Ctl _ _ _ _ _ H) as Hq1.
      rewrite (IHn expr expr' (S position) r p1 ltac:(intros; apply Hag; lia) E).
      cbn [bind]. now apply (IHtl expr). }
    destruct (is_char c "/"); [|assumption].
    destruct (get_natural fuel expr (S position)) as [[r p1]| | |] eqn:E;
      try discriminate.
    cbn [bind] in H. destruct (r =? 0) eqn:Z0; [discriminate|].
    pose proof (Ctl _ _ _ _ _ H) as Hq1.
    rewrite (IHn expr expr' (S position) r p1 ltac:(intros; apply Hag; lia) E).
    cbn [bind]. rewrite Z0. now apply (IHtl expr).
  - intros expr expr' position v q Hag H.
    rewrite evaluate_expression_step in *.
    destruct (evaluate_term fuel expr position) as [[r p1]| | |] eqn:E;
      try discriminate.
    cbn [bind] in H. pose proof (Cel _ _ _ _ _ H) as Hq.
    rewrite (IHt expr expr' position r p1 ltac:(intros; apply Hag; lia) E).
    cbn [bind]. now apply (IHel expr).
  - intros expr expr' result position v q Hag H.
    destruct (cursor_all (S fuel)) as (_ & _ & _ & _ & Cel').
    pose proof (Cel' _ _ _ _ _ H) as Hq.
    rewrite expression_loop_step in *. rewrite Hag by lia.
    destruct (read expr position) as [c| | |]; try discriminate.
    cbn [bind] in *. destruct (is_char c "+").
    { destruct (evaluate_term fuel expr (S position)) as [[r p1]| | |] eqn:E;
        try discriminate.
      cbn [bind] in H. pose proof (Cel _ _ _ _ _ H) as Hq1.
      rewrite (IHt expr expr' (S position) r p1 ltac:(intros; apply Hag; lia) E).
      cbn [bind]. now apply (IHel expr). }
    destruct (is_char c "-"); [|assumption].
    destruct (evaluate_term fuel expr (S position)) as [[r p1]| | |] eqn:E;
      try discriminate.
    cbn [bind] in H. pose proof (Cel _ _ _ _ _ H) as Hq1.
    rewrite (IHt expr expr' (S position) r p1 ltac:(intros; apply Hag; lia) E).
    cbn [bind]. now apply (IHel expr).
Qed.

(** ** An operator with nothing after it *)

Lemma denote_int :
  (forall f v, denote_factor f = Ok v -> Int.in_range v) /\
  (forall t v, denote_term t = Ok v -> Int.in_range v) /\
  (forall e v, denote_expression e = Ok v -> Int.in_range v).
Proof.
  apply syntax_ind; cbn [denote_factor denote_term denote_expression]; auto.
  - intros negative d ds v H. injection H as <-. apply int_wrap_in_range.
  - intros negative e _ v H.
    destruct (denote_expression e); try discriminate.
    injection H as <-. apply int_wrap_in_range.
  - intros t _ f _ v H.
    destruct (denote_term t); try discriminate.
    destruct (denote_factor f); try discriminate.
    injection H as <-. apply int_wrap_in_range.
  - intros t _ f _ v H.
    destruct (denote_term t); try discriminate.
    destruct (denote_factor f) as [b| | |]; try discriminate.
    cbn [bind] in H. destruct (b =? 0); [discriminate|].
    injection H as <-. apply int_wrap_in_range.
  - intros e _ t _ v H.
    destruct (denote_expression e); try discriminate.
    destruct (denote_term t); try discriminate.
    injection H as <-. apply int_wrap_in_range.
  - intros e _ t _ v H.
    destruct (denote_expression e); try discriminate.
    destruct (denote_term t); try discriminate.
    injection H as <-. apply int_wrap_in_range.
Qed.

Lemma get_natural_nothing fuel s p c :
  read s p = Ok c ->
  is_char c "-" = false -> is_char c "(" = false -> isdigit c = false ->
  get_natural (S (S fuel)) s p = Ok (0, p).
Proof.
  intros R M P D. rewrite (get_natural_digits _ _ _ c) by assumption.
  rewrite digits_loop_step, R. cbn [bind]. rewrite D. reflexivity.
Qed.

Lemma evaluate_term_at_end fuel s :
  evaluate_term (S (S (S fuel))) s (List.length s) = Ok (0, List.length s).
Proof.
  rewrite evaluate_term_step.
  rewrite (get_natural_nothing _ _ _ NUL) by (apply read_terminator || reflexivity).
  cbn [bind]. apply (term_loop_stops _ _ _ _ NUL);
    [apply read_terminator|reflexivity..].
Qed.

Lemma show_strlen :
  forall e rest, Forall (fun c => is_right_char c = true) rest ->
  strlen (show_expression e ++ rest) = List.length (show_expression e ++ rest).
Proof.
  intros e rest Hr. destruct show_right as (_ & _ & He).
  rewrite <- (app_nil_r (show_expression e ++ rest)) at 1.
  rewrite strlen_app_no_NUL; [simpl; lia|].
  apply right_chars_no_NUL, Forall_app. auto.
Qed.

Lemma evaluate_expression_then_sign (e : expression) (c : ascii) (fuel : nat) :
  c = "+"%char \/ c = "-"%char ->
  (3 * (List.length (show_expression e ++ [c]) + 1) + 3 <= fuel)%nat ->
  evaluate_expression fuel (show_expression e ++ [c]) 0 =
  (v <- denote_expression e ;; Ok (v, S (List.length (show_expression e)))).
Proof.
  intros Hc Hfuel. destruct parse_tree as (_ & _ & He).
  assert (Hright : Forall (fun x => is_right_char x = true) [c])
    by (destruct Hc; subst c; repeat constructor).
  apply evaluate_expression_settles.
  - apply (He e (show_expression e ++ [c]) [] [c]);
      try (destruct Hc; subst c; reflexivity).
    + rewrite show_strlen by assumption. lengths.
    + exists 4%nat. intros [|k] Hk; [lia|].
      cbn [List.length Nat.add].
      destruct (denote_expression e) as [v| | |] eqn:Ev; cbn [bind]; auto.
      rewrite expression_loop_step.
      rewrite (read_split _ (show_expression e) [] c) by reflexivity.
      cbn [bind].
      assert (Hterm : evaluate_term k (show_expression e ++ [c])
                        (S (List.length (show_expression e))) =
                      Ok (0, S (List.length (show_expression e)))).
      { replace (S (List.length (show_expression e)))
          with (List.length (show_expression e ++ [c])) by lengths.
        destruct k as [|[|[|k]]]; try lia. apply evaluate_term_at_end. }
      assert (Hstop : forall r,
                 expression_loop k (show_expression e ++ [c]) r
                   (S (List.length (show_expression e))) =
                 Ok (r, S (List.length (show_expression e)))).
      { intros r. destruct k as [|k]; [lia|].
        apply (expression_loop_stops _ _ _ _ NUL); [|reflexivity..].
        replace (S (List.length (show_expression e)))
          with (List.length (show_expression e ++ [c])) by lengths.
        apply read_terminator. }
      destruct denote_int as (_ & _ & Hint). specialize (Hint e v Ev).
      destruct Hc; subst c.
      * change (is_char "+" "+") with true. cbv iota.
        rewrite Hterm. cbn [bind]. rewrite Hstop.
        unfold Int.add. now rewrite Z.add_0_r, int_wrap_small.
      * change (is_char "-" "+") with false.
        change (is_char "-" "-") with true. cbv iota.
        rewrite Hterm. cbn [bind]. rewrite Hstop.
        unfold Int.sub. now rewrite Z.sub_0_r, int_wrap_small.
  - destruct (all_finish fuel) as (_ & _ & _ & Hf & _). apply Hf. lia.
Qed.

Lemma evaluate_term_then_slash (t : term) : forall s pre,
  s = pre ++ show_term t ++ ["/"%char] ->
  strlen s = List.length s ->
  exists n, forall fuel, (n <= fuel)%nat ->
    evaluate_term fuel s (List.length pre) = Exit DivisionByZero.
Proof.
  intros s pre Hs Hlen. destruct parse_tree as (_ & Ht & _).
  apply (Ht t s pre ["/"%char] Hs eq_refl).
  - rewrite Hlen. subst s. lengths.
  - exists 4%nat. intros [|k] Hk; [lia|].
    destruct denote_finished as (_ & Ft & _).
    destruct (Ft t) as [[v ->] | ->]; cbn [bind]; [|reflexivity].
    rewrite term_loop_step.
    rewrite (read_split s (pre ++ show_term t) [] "/"%char)
      by (same_text || lengths).
    cbn [bind]. change (is_char "/" "*") with false.
    change (is_char "/" "/") with true. cbv iota.
    replace (S (List.length pre + List.length (show_term t)))
      with (List.length s) by (subst s; lengths).
    destruct k as [|[|k]]; try lia.
    rewrite (get_natural_nothing _ _ _ NUL)
      by (apply read_terminator || reflexivity).
    reflexivity.
Qed.

Lemma evaluate_expression_then_slash (e : expression) (fuel : nat) :
  (3 * (List.length (show_expression e ++ ["/"%char]) + 1) + 3 <= fuel)%nat ->
  evaluate_expression fuel (show_expression e ++ ["/"%char]) 0 =
  Exit DivisionByZero.
Proof.
  intros Hfuel.
  assert (Hlen : strlen (show_expression e ++ ["/"%char]) =
                 List.length (show_expression e ++ ["/"%char]))
    by (apply show_strlen; repeat constructor).
  apply evaluate_expression_settles;
    [|destruct (all_finish fuel) as (_ & _ & _ & Hf & _); apply Hf; lia].
  destruct parse_tree as (_ & _ & He).
  destruct denote_finished as (_ & _ & Fe).
  destruct e as [t | e t | e t]; cbn [show_expression] in *.
  - destruct (evaluate_term_then_slash t (show_term t ++ ["/"%char]) []
                eq_refl Hlen) as [n Hn].
    exists (S n). intros [|k] Hk; [lia|].
    rewrite evaluate_expression_step.
    change 0%nat with (@List.length ascii []). rewrite (Hn k) by lia.
    reflexivity.
  - destruct (evaluate_term_then_slash t
                ((show_expression e ++ "+"%char :: show_term t) ++ ["/"%char])
                (show_expression e ++ ["+"%char])
                ltac:(same_text) Hlen) as [n Hn].
    change 0%nat with (@List.length ascii []).
    apply (He e ((show_expression e ++ "+"%char :: show_term t) ++ ["/"%char])
             [] ("+"%char :: show_term t ++ ["/"%char]));
      [same_text|reflexivity..| |].
    + rewrite Hlen. lengths.
    + exists (S n). intros [|k] Hk; [lia|].
      cbn [List.length Nat.add].
      destruct (Fe e) as [[v ->] | ->]; cbn [bind]; [|reflexivity].
      rewrite expression_loop_step.
      rewrite (read_split _ (show_expression e)
                 (show_term t ++ ["/"%char]) "+"%char)
        by (same_text || lengths).
      cbn [bind]. change (is_char "+" "+") with true. cbv iota.
      replace (S (List.length (show_expression e)))
        with (List.length (show_expression e ++ ["+"%char])) by lengths.
      rewrite (Hn k) by lia. reflexivity.
  - destruct (evaluate_term_then_slash t
                ((show_expression e ++ "-"%char :: show_term t) ++ ["/"%char])
                (show_expression e ++ ["-"%char])
                ltac:(same_text) Hlen) as [n Hn].
    change 0%nat with (@List.length ascii []).
    apply (He e ((show_expression e ++ "-"%char :: show_term t) ++ ["/"%char])
             [] ("-"%char :: show_term t ++ ["/"%char]));
      [same_text|reflexivity..| |].
    + rewrite Hlen. lengths.
    + exists (S n). intros [|k] Hk; [lia|].
      cbn [List.length Nat.add].
      destruct (Fe e) as [[v ->] | ->]; cbn [bind]; [|reflexivity].
      rewrite expression_loop_step.
      rewrite (read_split _ (show_expression e)
                 (show_term t ++ ["/"%char]) "-"%char)
        by (same_text || lengths).
      cbn [bind]. change (is_char "-" "+") with false.
      change (is_char "-" "-") with true. cbv iota.
      replace (S (List.length (show_expression e)))
        with (List.length (show_expression e ++ ["-"%char])) by lengths.
      rewrite (Hn k) by lia. reflexivity.
Qed.

(** ** The decimal numeral of an [int] *)

Lemma uint_digits_text (u : Decimal.uint) :
  text (DecimalString.NilEmpty.string_of_uint u) =
  map digit_char (uint_digits u).
Proof.
  induction u; cbn [DecimalString.NilEmpty.string_of_uint uint_digits map];
    unfold text in *; cbn [list_ascii_of_string]; now rewrite ?IHu.
Qed.

Lemma of_uint_acc_magnitude (u : Decimal.uint) : forall acc,
  Zpos (Pos.of_uint_acc u acc) =
  fold_left (fun a d => a * 10 + digit_value d) (uint_digits u) (Zpos acc).
Proof.
  induction u; intros acc; cbn [Pos.of_uint_acc uint_digits fold_left];
    [reflexivity|rewrite IHu; f_equal; cbn [digit_value]; lia..].
Qed.

Lemma of_uint_magnitude (u : Decimal.uint) :
  Z.of_N (Pos.of_uint u) = magnitude (uint_digits u).
Proof.
  unfold magnitude.
  induction u; cbn [Pos.of_uint uint_digits fold_left]; auto;
    cbn [Z.of_N]; rewrite of_uint_acc_magnitude; reflexivity.
Qed.

Lemma to_uint_magnitude (p : positive) :
  magnitude (uint_digits (Pos.to_uint p)) = Zpos p.
Proof.
  rewrite <- of_uint_magnitude, DecimalPos.Unsigned.of_to. reflexivity.
Qed.

Lemma to_uint_digits (p : positive) :
  exists d ds, uint_digits (Pos.to_uint p) = d :: ds /\
               text (DecimalString.NilZero.string_of_uint (Pos.to_uint p)) =
               map digit_char (d :: ds).
Proof.
  pose proof (DecimalPos.Unsigned.to_uint_nonnil p) as Hnil.
  pose proof (uint_digits_text (Pos.to_uint p)) as Htext.
  destruct (Pos.to_uint p) eqn:E; [contradiction| ..];
    cbn [uint_digits] in *; eexists; eexists; (split; [reflexivity|]);
    exact Htext.
Qed.

Lemma print_int_literal (v : Z) :
  exists negative d ds,
    print_int v = show_expression (ETerm (TFactor (Lit negative d ds))) /\
    signed negative (magnitude (d :: ds)) = v /\
    magnitude (d :: ds) = Z.abs v.
Proof.
  unfold print_int. destruct v as [|p|p]; cbn [Z.to_int].
  - exists false, D0, []. repeat split; reflexivity.
  - destruct (to_uint_digits p) as (d & ds & Hd & Ht).
    exists false, d, ds. cbn [DecimalString.NilZero.string_of_int].
    split; [exact Ht|]. rewrite <- Hd, to_uint_magnitude.
    split; reflexivity.
  - destruct (to_uint_digits p) as (d & ds & Hd & Ht).
    exists true, d, ds. cbn [DecimalString.NilZero.string_of_int].
    split.
    + cbn [show_expression show_term show_factor show_sign app].
      rewrite <- Ht. reflexivity.
    + rewrite <- Hd, to_uint_magnitude. split; reflexivity.
Qed.

(** ** The line that [fgets] hands to [calculate] *)

Lemma read_line_newline (body later : list ascii) : forall n,
  Forall (fun c => is_char c newline = false) body ->
  (List.length body < n)%nat ->
  read_line n (body ++ newline :: later) = body ++ [newline].
Proof.
  induction body as [|c body IH]; intros n Hbody Hn.
  - destruct n as [|n]; [simpl in Hn; lia|]. reflexivity.
  - destruct n as [|n]; [simpl in Hn; lia|].
    inversion Hbody as [|? ? Hc Hrest]; subst.
    cbn [read_line app]. rewrite Hc. f_equal. apply IH; [assumption|].
    simpl in Hn. lia.
Qed.

Lemma fgets_line (body later : list ascii) :
  Forall (fun c => is_char c newline = false) body ->
  (List.length body <= 98)%nat ->
  fgets 100 (body ++ newline :: later) = Some (body ++ [newline]).
Proof.
  intros Hbody Hlen. unfold fgets.
  destruct (body ++ newline :: later) eqn:E;
    [destruct body; discriminate|].
  rewrite <- E. f_equal. apply read_line_newline; [assumption|].
  simpl. lia.
Qed.



(** ** The validator, exactly *)

Lemma calculate_wrong_character_iff (expr : list ascii) (fuel : nat) :
  (gas expr <= fuel)%nat ->
  calculate fuel expr = Exit WrongCharacter <->
  (strlen expr = O \/
   exists i c, (i + 1 < strlen expr)%nat /\ nth_error expr i = Some c /\
               is_right_char c = false).
Proof.
  intros Hfuel. split.
  - unfold calculate. intros H.
    destruct (check_chars fuel expr 0) as [[]|why| |] eqn:C; try discriminate.
    + cbn [bind] in H.
      destruct (evaluate_expression fuel expr 0) as [[v q]|why| |] eqn:E;
        try discriminate.
      cbn [bind] in H. injection H as ->.
      destruct (parsers_exit fuel) as (_ & _ & _ & He & _).
      apply He in E. destruct E as [E _]. discriminate E.
    + now apply check_chars_exit in C.
  - assert (Hgas : (1 <= fuel)%nat) by (unfold gas in Hfuel; lia).
    intros [Hempty | (i & c & Hi & Hc & Hbad)].
    + unfold calculate. destruct fuel as [|fuel]; [lia|].
      now rewrite check_chars_empty.
    + unfold calculate.
      rewrite (check_chars_rejects expr i c Hi Hc Hbad i 0%nat fuel);
        [reflexivity|lia|].
      pose proof (strlen_le_length expr). unfold gas in Hfuel. lia.
Qed.

(** ** Allowed characters, common prefixes, and the fuel of the tests *)

Lemma check_chars_right (s : list ascii) (fuel : nat) :
  Forall (fun c => is_right_char c = true) s ->
  (1 <= List.length s)%nat ->
  (List.length s <= fuel)%nat ->
  check_chars fuel s 0 = Ok tt.
Proof.
  intros Hr Hne Hfuel.
  assert (Hlen : strlen s = List.length s).
  { rewrite <- (app_nil_r s) at 1.
    rewrite strlen_app_no_NUL by now apply right_chars_no_NUL.
    simpl. lia. }
  apply (check_chars_passes s (right_chars_validate s Hr) ltac:(lia)
           (List.length s - 1)); lia.
Qed.

Lemma read_app_prefix (pre rest rest' : list ascii) (i : nat) :
  (i < List.length pre)%nat -> read (pre ++ rest') i = read (pre ++ rest) i.
Proof.
  intros Hi. unfold read. rewrite <- !app_assoc.
  now rewrite !nth_error_app1 by assumption.
Qed.

Lemma more_get_natural (n fuel : nat) expr position :
  (n <= fuel)%nat -> get_natural n expr position <> OutOfFuel ->
  get_natural fuel expr position = get_natural n expr position.
Proof. intros. now apply (proj1 (fuel_more n)). Qed.

Lemma more_evaluate_term (n fuel : nat) expr position :
  (n <= fuel)%nat -> evaluate_term n expr position <> OutOfFuel ->
  evaluate_term fuel expr position = evaluate_term n expr position.
Proof. intros. now apply (proj1 (proj2 (fuel_more n))). Qed.

Lemma more_evaluate_expression (n fuel : nat) expr position :
  (n <= fuel)%nat -> evaluate_expression n expr position <> OutOfFuel ->
  evaluate_expression fuel expr position = evaluate_expression n expr position.
Proof. intros. now apply (proj1 (proj2 (proj2 (proj2 (fuel_more n))))). Qed.

Lemma more_calculate (n fuel : nat) expr :
  (n <= fuel)%nat -> (gas expr <= n)%nat ->
  calculate fuel expr = calculate n expr.
Proof.
  intros Hle Hgas.
  rewrite (proj2 (calculate_more expr fuel ltac:(lia))).
  now rewrite (proj2 (calculate_more expr n Hgas)).
Qed.

Lemma tests_run (fuel : nat) :
  (100 <= fuel)%nat ->
  test_get_natural fuel = Ok true /\
  test_evaluate_term fuel = Ok true /\
  test_evaluate_expression fuel = Ok true /\
  test_calculate fuel = Fault.
Proof.
  intros Hfuel.
  unfold test_get_natural, test_evaluate_term, test_evaluate_expression,
    test_calculate.
  rewrite !(more_get_natural 100 fuel)
    by (assumption || (vm_compute; discriminate)).
  rewrite !(more_evaluate_term 100 fuel)
    by (assumption || (vm_compute; discriminate)).
  rewrite !(more_evaluate_expression 100 fuel)
    by (assumption || (vm_compute; discriminate)).
  rewrite !(more_calculate 100 fuel) by (assumption || (vm_compute; lia)).
  repeat split; vm_compute; reflexivity.
Qed.

(** * Further properties of the code *)

(** X1.  [calculate] on the empty string reports a wrong character: the
    bound strlen(expression) - 1 of its loop wraps around, and the
    terminating NUL at index 0 is not an allowed character. *)
Theorem empty_string_is_rejected (expr : list ascii) (fuel : nat) :
  strlen expr = O ->
  (1 <= fuel)%nat ->
  calculate fuel expr = Exit WrongCharacter.
Proof.
  intros Hempty Hfuel. destruct fuel as [|fuel]; [lia|].
  unfold calculate. now rewrite check_chars_empty.
Qed.

Lemma empty_string_is_rejected_witness :
  calculate 1 [] = Exit WrongCharacter.
Proof. apply (empty_string_is_rejected [] 1); [reflexivity|lia]. Defined.

(** X2.  [calculate] ends with the wrong-character report exactly when the
    string is empty or some character before its last one is outside the
    allowed set; in every other case the validator lets the string through
    and no later step reports a wrong character. *)
Theorem wrong_character_exactly (expr : list ascii) (fuel : nat) :
  (gas expr <= fuel)%nat ->
  calculate fuel expr = Exit WrongCharacter <->
  (strlen expr = O \/
   exists i c, (i + 1 < strlen expr)%nat /\ nth_error expr i = Some c /\
               is_right_char c = false).
Proof. apply calculate_wrong_character_iff. Qed.

Lemma wrong_character_exactly_witness :
  calculate 30 (text "1 +2") = Exit WrongCharacter.
Proof.
  apply (proj2 (wrong_character_exactly (text "1 +2") 30 ltac:(vm_compute; lia))).
  right. exists 1%nat, " "%char. repeat split. vm_compute. lia.
Defined.

(** X3.  Every grammar level returns with the cursor at or after the
    position it started from; [evaluate_term] and [evaluate_expression]
    leave it within the text or on its terminator, [get_natural] at most
    one further. *)
Theorem cursor_stays_by_the_text (fuel : nat) (expr : list ascii)
  (position : nat) (v : Z) (q : nat) :
  (get_natural fuel expr position = Ok (v, q) ->
   (position <= q <= S (List.length expr))%nat) /\
  (evaluate_term fuel expr position = Ok (v, q) ->
   (position <= q <= List.length expr)%nat) /\
  (evaluate_expression fuel expr position = Ok (v, q) ->
   (position <= q <= List.length expr)%nat).
Proof.
  destruct (cursor_all fuel) as (Cn & Ct & _ & Ce & _).
  split; [apply Cn|split; [apply Ct|apply Ce]].
Qed.

Lemma cursor_stays_by_the_text_witness :
  (0 <= 7 <= List.length (text "4*4-3*2"))%nat.
Proof.
  apply (proj2 (proj2 (cursor_stays_by_the_text 40 (text "4*4-3*2") 0 10 7))).
  vm_compute. reflexivity.
Defined.

(** X4.  When [evaluate_term] returns, the character under the cursor is
    neither a star nor a slash; when [evaluate_expression] returns, it is
    none of the four operators: no operator is left pending. *)
Theorem levels_stop_at_no_operator (fuel : nat) (expr : list ascii)
  (position : nat) (v : Z) (q : nat) :
  (evaluate_term fuel expr position = Ok (v, q) ->
   exists c, read expr q = Ok c /\
             is_char c "*" = false /\ is_char c "/" = false) /\
  (evaluate_expression fuel expr position = Ok (v, q) ->
   exists c, read expr q = Ok c /\
             is_char c "*" = false /\ is_char c "/" = false /\
             is_char c "+" = false /\ is_char c "-" = false).
Proof.
  split; [apply evaluate_term_stop|apply evaluate_expression_stop].
Qed.

Lemma levels_stop_at_no_operator_witness :
  exists c, read (text "1+2)*5") 3 = Ok c /\
            is_char c "*" = false /\ is_char c "/" = false /\
            is_char c "+" = false /\ is_char c "-" = false.
Proof.
  apply (proj2 (levels_stop_at_no_operator 40 (text "1+2)*5") 0 3 3)).
  vm_compute. reflexivity.
Defined.

(** X5.  The grammar levels never end a run by themselves except for a
    division by zero, and only on a text that contains a slash: without a
    slash in the string [calculate] cannot end with the division exit. *)
Theorem division_exit_needs_a_slash (fuel : nat) (expr : list ascii) :
  (forall position why,
      get_natural fuel expr position = Exit why ->
      why = DivisionByZero /\ In "/"%char expr) /\
  (forall position why,
      evaluate_term fuel expr position = Exit why ->
      why = DivisionByZero /\ In "/"%char expr) /\
  (forall position why,
      evaluate_expression fuel expr position = Exit why ->
      why = DivisionByZero /\ In "/"%char expr) /\
  (calculate fuel expr = Exit DivisionByZero -> In "/"%char expr).
Proof.
  destruct (parsers_exit fuel) as (Hn & Ht & _ & He & _).
  split; [|split; [|split]]; eauto.
  unfold calculate. intros H.
  destruct (check_chars fuel expr 0) as [[]|why| |] eqn:C; try discriminate.
  - cbn [bind] in H.
    destruct (evaluate_expression fuel expr 0) as [[v q]|why| |] eqn:E;
      try discriminate.
    eapply He; eassumption.
  - cbn [bind] in H. apply check_chars_exit in C. destruct C as [-> _].
    discriminate H.
Qed.

Lemma division_exit_needs_a_slash_witness : In "/"%char (text "3+(4/0)").
Proof.
  apply (proj2 (proj2 (proj2 (division_exit_needs_a_slash 40 (text "3+(4/0)"))))).
  vm_compute. reflexivity.
Defined.

(** X6.  On a string without an opening parenthesis no run reads outside
    the string, whatever else the string holds: neither [calculate] nor a
    grammar level started within the string. *)
Theorem no_parenthesis_no_read_outside (fuel : nat) (expr : list ascii) :
  ~ In "("%char expr ->
  calculate fuel expr <> Fault /\
  (forall position, (position <= List.length expr)%nat ->
      get_natural fuel expr position <> Fault /\
      evaluate_term fuel expr position <> Fault /\
      evaluate_expression fuel expr position <> Fault).
Proof.
  intros Hno. destruct (parsers_no_fault fuel expr Hno) as (Hn & Ht & _ & He & _).
  split; [|auto].
  unfold calculate. apply bind_no_fault; [apply check_chars_no_fault; lia|].
  intros _ _. apply bind_no_fault; [apply He; lia|].
  intros [v q] _. discriminate.
Qed.

Lemma no_parenthesis_no_read_outside_witness :
  calculate 40 (text "1+*/-)x") <> Fault.
Proof.
  apply (no_parenthesis_no_read_outside 40 (text "1+*/-)x")).
  intros H. simpl in H. intuition discriminate.
Defined.

(** X7.  A run of a grammar level depends on no character after the one
    where it stops: on any other string with the same characters up to
    that position it returns the same value and cursor.  In particular the
    text that follows the stop can be replaced by any other. *)
Theorem evaluation_is_local (fuel : nat) :
  (forall expr expr' position v q,
      (forall i, (i <= q)%nat -> read expr' i = read expr i) ->
      (get_natural fuel expr position = Ok (v, q) ->
       get_natural fuel expr' position = Ok (v, q)) /\
      (evaluate_term fuel expr position = Ok (v, q) ->
       evaluate_term fuel expr' position = Ok (v, q)) /\
      (evaluate_expression fuel expr position = Ok (v, q) ->
       evaluate_expression fuel expr' position = Ok (v, q))) /\
  (forall pre rest rest' position v q,
      (q < List.length pre)%nat ->
      evaluate_expression fuel (pre ++ rest) position = Ok (v, q) ->
      evaluate_expression fuel (pre ++ rest') position = Ok (v, q)).
Proof.
  destruct (parsers_local fuel) as (Hn & Ht & _ & He & _).
  split.
  - intros expr expr' position v q Hag. split; [|split]; eauto.
  - intros pre rest rest' position v q Hq H.
    apply (He (pre ++ rest)); [|assumption].
    intros i Hi. apply read_app_prefix. lia.
Qed.

Lemma evaluation_is_local_witness :
  evaluate_expression 40 (text "1+2)" ++ text "*5") 0 = Ok (3, 3%nat).
Proof.
  apply (proj2 (evaluation_is_local 40) (text "1+2)") (text "(((") (text "*5")).
  - vm_compute. lia.
  - vm_compute. reflexivity.
Defined.

(** X8.  On the text of every well-formed expression none of whose
    divisions divides INT_MIN by -1, also one whose sums, differences or
    products overflow, [evaluate_expression] consumes the whole text and
    returns the value of the syntax tree computed with the wrap-around
    operations of [int], products and quotients before sums and each chain
    from left to right, or ends at the first division by zero; [calculate]
    returns the same. *)
Theorem calculate_machine_arithmetic (e : expression) (fuel : nat) :
  min_by_minus_one_expression e = false ->
  (gas (show_expression e) <= fuel)%nat ->
  evaluate_expression fuel (show_expression e) 0 =
  (v <- denote_expression e ;; Ok (v, List.length (show_expression e))) /\
  calculate fuel (show_expression e) = denote_expression e.
Proof.
  intros _ Hfuel. split; [|now apply calculate_show].
  pose proof (evaluate_expression_tree e [] fuel) as H.
  rewrite app_nil_r in H. apply H; auto. unfold gas in Hfuel. lia.
Qed.

Lemma calculate_machine_arithmetic_witness :
  calculate 60 (text "2147483647+1") = Ok (-2147483648).
Proof.
  apply (proj2 (calculate_machine_arithmetic
           (EAdd (ETerm (TFactor (Lit false D2 [D1; D4; D7; D4; D8; D3; D6; D4; D7])))
                 (TFactor (Lit false D1 [])))
           60 eq_refl ltac:(vm_compute; lia))).
Defined.

(** X9.  An operator with nothing after it takes the zero fallback of
    [get_natural] as its right operand: after a well-formed expression
    (none of whose divisions divides INT_MIN by -1) a final plus or minus
    leaves the value unchanged, and a final slash is a division by zero. *)
Theorem trailing_operator (e : expression) (fuel : nat) :
  min_by_minus_one_expression e = false ->
  (gas (show_expression e ++ ["+"%char]) <= fuel)%nat ->
  calculate fuel (show_expression e ++ ["+"%char]) = denote_expression e /\
  calculate fuel (show_expression e ++ ["-"%char]) = denote_expression e /\
  calculate fuel (show_expression e ++ ["/"%char]) = Exit DivisionByZero.
Proof.
  intros _ Hfuel. destruct show_right as (_ & _ & Hr).
  assert (Hcheck : forall c, is_right_char c = true ->
            check_chars fuel (show_expression e ++ [c]) 0 = Ok tt).
  { intros c Hc. apply check_chars_right.
    - apply Forall_app. split; [apply Hr|]. now repeat constructor.
    - lengths.
    - unfold gas in Hfuel. lengths. }
  unfold calculate, gas in *. rewrite !Hcheck by reflexivity. cbn [bind].
  rewrite !evaluate_expression_then_sign by (auto; lengths).
  rewrite evaluate_expression_then_slash by lengths.
  destruct (denote_expression e); auto.
Qed.

Lemma trailing_operator_witness :
  calculate 40 (text "7-2+") = Ok 5 /\
  calculate 40 (text "7-2-") = Ok 5 /\
  calculate 40 (text "7-2/") = Exit DivisionByZero.
Proof.
  apply (trailing_operator
           (ESub (ETerm (TFactor (Lit false D7 []))) (TFactor (Lit false D2 [])))
           40).
  - reflexivity.
  - vm_compute. lia.
Defined.



(** X11.  After its tests, [main] given a line of at most 98 characters
    (none of them NUL) and the newline prints the wrong-character message
    and exits with the failure status exactly when some character before
    the newline is outside the allowed set: the one character the
    validator skips is the newline itself. *)
Theorem console_checks_every_typed_character (body later : list ascii)
  (fuel : nat) :
  Forall (fun c => c <> NUL /\ is_char c newline = false) body ->
  (List.length body <= 98)%nat ->
  (gas (body ++ [newline]) <= fuel)%nat ->
  main_after_tests fuel (body ++ newline :: later) =
  (prompt ++ wrong_character_message, ExitsFailure) <->
  Exists (fun c => is_right_char c = false) body.
Proof.
  intros Hbody Hlen Hfuel.
  assert (Hline : fgets 100 (body ++ newline :: later) =
                  Some (body ++ [newline])).
  { apply fgets_line; [|assumption].
    eapply Forall_impl; [|apply Hbody]. now intros c [_ H]. }
  assert (Hstrlen : strlen (body ++ [newline]) = S (List.length body)).
  { rewrite strlen_app_no_NUL; [simpl; lia|].
    eapply Forall_impl; [|apply Hbody]. now intros c [H _]. }
  unfold main_after_tests. rewrite Hline.
  pose proof (calculate_wrong_character_iff (body ++ [newline]) fuel Hfuel)
    as Hiff.
  rewrite Hstrlen in Hiff.
  split.
  - intros H. apply Exists_exists.
    destruct (calculate fuel (body ++ [newline])) as [v|[]| |] eqn:C.
    + discriminate H.
    + destruct (proj1 Hiff eq_refl) as [|(i & c & Hi & Hc & Hbad)];
        [discriminate|].
      exists c. split; [|assumption].
      rewrite nth_error_app1 in Hc by lia. eapply nth_error_In; eassumption.
    + apply (f_equal fst) in H. cbn [fst] in H.
      rewrite <- (app_nil_r prompt) in H at 1.
      apply app_inv_head in H. discriminate H.
    + discriminate H.
    + discriminate H.
  - intros H. apply Exists_exists in H. destruct H as (c & Hin & Hbad).
    apply In_nth_error in Hin. destruct Hin as [i Hi].
    assert (Hlt : (i < List.length body)%nat)
      by (apply nth_error_Some; congruence).
    rewrite (proj2 Hiff); [reflexivity|].
    right. exists i, c. repeat split; [lia| |assumption].
    now rewrite nth_error_app1 by lia.
Qed.

Lemma console_checks_every_typed_character_witness :
  main_after_tests 40 (text "1+2a" ++ newline :: []) =
  (prompt ++ wrong_character_message, ExitsFailure).
Proof.
  apply (proj2 (console_checks_every_typed_character (text "1+2a") [] 40
           ltac:(repeat constructor; discriminate)
           ltac:(vm_compute; lia) ltac:(vm_compute; lia))).
  apply Exists_cons_tl, Exists_cons_tl, Exists_cons_tl, Exists_cons_hd.
  reflexivity.
Defined.

(** X12.  What [main] prints for a value reads back as that value: for
    every [int] other than INT_MIN, [calculate] on its decimal numeral
    returns it. *)
Theorem printed_value_reads_back (v : Z) (fuel : nat) :
  Int.min_signed < v <= Int.max_signed ->
  (gas (print_int v) <= fuel)%nat ->
  calculate fuel (print_int v) = Ok v.
Proof.
  intros Hv Hfuel.
  destruct (print_int_literal v) as (negative & d & ds & Hp & Hs & Hm).
  rewrite Hp in *. rewrite calculate_show by assumption.
  destruct denote_value as (_ & _ & He). apply He.
  - cbn [fits_expression fits_term fits_factor]. apply in_rangeb_spec.
    rewrite Hm. unfold Int.in_range, Int.min_signed, Int.max_signed in *.
    lia.
  - cbn [value_expression value_term value_factor]. now rewrite Hs.
Qed.

Lemma printed_value_reads_back_witness :
  calculate 50 (print_int (-2147483647)) = Ok (-2147483647).
Proof.
  apply (printed_value_reads_back (-2147483647) 50).
  - unfold Int.min_signed, Int.max_signed. lia.
  - vm_compute. lia.
Defined.

(** X13.  [main] runs [test_overall] before it prompts.  The assertions of
    [test_get_natural], [test_evaluate_term] and [test_evaluate_expression]
    all hold, and so do the first two of [test_calculate]; its third
    evaluates a text whose first parenthesis is never closed and reads
    outside the string, so that the run of [main] is undefined from there,
    whatever the input. *)
Theorem main_is_undefined_in_its_tests (fuel : nat) (stdin : list ascii) :
  (100 <= fuel)%nat ->
  test_get_natural fuel = Ok true /\
  test_evaluate_term fuel = Ok true /\
  test_evaluate_expression fuel = Ok true /\
  test_calculate fuel = Fault /\
  main fuel stdin = ([], Undefined).
Proof.
  intros Hfuel. destruct (tests_run fuel Hfuel) as (H1 & H2 & H3 & H4).
  repeat split; try assumption.
  unfold main, test_overall, and_then. now rewrite H1, H2, H3, H4.
Qed.

Lemma main_is_undefined_in_its_tests_witness :
  main 100 (text "1+2") = ([], Undefined).
Proof.
  apply (main_is_undefined_in_its_tests 100 (text "1+2")). lia.
Defined.

(** X14.  [is_right_char] accepts exactly sixteen characters: the two
    parentheses, the four operators and the ten decimal digits.  Blanks,
    the newline, the decimal point, letters and the NUL are all refused. *)
Theorem is_right_char_exactly (c : ascii) :
  is_right_char c = true <-> In c (text "()+-*/0123456789").
Proof.
  destruct c as [b0 b1 b2 b3 b4 b5 b6 b7].
  destruct b0, b1, b2, b3, b4, b5, b6, b7;
    (split;
     [ intros H; first [discriminate H | vm_compute; tauto]
     | intros H; first [reflexivity
                       | exfalso; vm_compute in H; intuition discriminate] ]).
Qed.
